(** * bgpmon: session/stream subsystem and module runtime

    A shallow embedding of the parts of bgpmon that its specification makes
    claims about, followed by the properties proved of them.

    Programs:
    - [Hijack]: the hijack task's event test and counting loop
      (package modules, hijack module);
    - [Periodic]: the periodic daemon's scheduling loop
      (package modules, periodic module);
    - [Go], [sql]: errors, panics, [fmt.Sprintf], and the contract of Go's
      database/sql that the executor relies on;
    - [Executor]: the operation dictionary and the executor (package db);
    - [Util]: the insert buffer and the worker pool of package util;
    - [Stream], [Session]: write streams and sessions (package db, the
      session code in db/stream_test.go);
    - [Runtime]: one session with one write stream as a system of
      goroutines that meet on unbuffered channels;
    - [Scenario], [ScenarioMore]: concrete sessions, requests and runs;
    - [HijackRun]: the hijack task as a whole, from its options to its
      report;
    - [StreamTest]: the helper of db/stream_test.go that writes a file to
      a stream;
    - [RuntimeMore], [Derived]: further invariants of the running stream
      and the notions that the further properties are stated with.

    Properties: [HijackFacts], [PeriodicFacts], [ExecutorFacts],
    [SessionFacts], [StreamFacts], [TxFacts], [RuntimeFacts]; then
    [PeriodicMore], [HijackMore], [StreamTestFacts], [ExecutorMore],
    [StreamMore], [SessionMore], [RuntimeMoreFacts].

    Go's [int] values are modelled as [Z], strings as [string], slices as
    lists, maps as [gmap], a [nil] error as [None], and a select loop as a
    function of the events that the loop receives. *)

From Stdlib Require Import ZArith String Ascii List Bool Lia.
From stdpp Require Import base tactics option list strings gmap fin_maps pretty.

Open Scope string_scope.
Open Scope list_scope.

(* ===================================================================== *)
(** * The hijack task (package modules)                                   *)
(* ===================================================================== *)

Module Hijack.

(** [db.Entity] and [db.Capture], with the fields the task reads. *)
Record Entity := mkEntity {
  Name : string;
  Email : string;
  OwnedOrigins : list Z;
  OwnedPrefixes : list string
}.

Record Capture := mkCapture {
  Advertized : list string;
  ASPath : list Z
}.

(** The inner loop of [isEvent]: [true] when some step of the path equals
    [as_], which is where the source returns [false]. *)
Fixpoint pathHas (as_ : Z) (path : list Z) : bool :=
  match path with
  | [] => false
  | asStep :: rest => if (asStep =? as_)%Z then true else pathHas as_ rest
  end.

(** The outer loop of [isEvent], over the entity's owned origins. *)
Fixpoint isEventFrom (origins : list Z) (path : list Z) : bool :=
  match origins with
  | [] => true
  | as_ :: rest => if pathHas as_ path then false else isEventFrom rest path
  end.

Definition isEvent (ent : Entity) (cap : Capture) : bool :=
  isEventFrom (OwnedOrigins ent) (ASPath cap).

(** The read loop of [Run]: [msgCt] and [events] after the capture stream
    has yielded [caps]. *)
Fixpoint scanFrom (ent : Entity) (caps : list Capture) (msgCt events : nat)
  : nat * nat :=
  match caps with
  | [] => (msgCt, events)
  | cap :: rest =>
      let msgCt' := S msgCt in
      if isEvent ent cap then scanFrom ent rest msgCt' (S events)
      else scanFrom ent rest msgCt' events
  end.

Definition scan (ent : Entity) (caps : list Capture) : nat * nat :=
  scanFrom ent caps 0 0.

End Hijack.

(* ===================================================================== *)
(** * The periodic daemon (package modules)                               *)
(* ===================================================================== *)

Module Periodic.

Definition error := string.
Definition optMap := gmap string string.

(** What the select statement of [Run] receives: the daemon's cancel
    signal, or a tick of the ticker together with what
    [server.RunModule] returns when it is invoked at that tick. *)
Inductive event :=
| Cancel
| Tick (res : option error).

Definition failed (ev : event) : bool :=
  match ev with Tick (Some _) => true | _ => false end.

Definition isTick (ev : event) : bool :=
  match ev with Tick _ => true | Cancel => false end.

(** A window of five consecutive failed ticks inside an event sequence. *)
Definition fiveFailures (w : list event) : Prop :=
  length w = 5 /\ Forall (fun ev => failed ev = true) w.

(** One call of [server.RunModule]: module name, generated id, options. *)
Record call := mkCall { target : string; mID : string; subArgs : optMap }.

Inductive status :=
| Waiting          (* blocked in the select, no event left *)
| Stopped          (* returned on the cancel signal *)
| SelfTerminated.  (* called the finish function and returned *)

Record outcome := mkOutcome {
  state : status;
  calls : list call;     (* invocations of the target, oldest first *)
  finishes : nat;        (* how many times [f] was called *)
  runC : nat;
  errC : nat
}.

Section Run.
(** Helpers of package util and of Go's time package. *)
Variable CheckForKeys : optMap -> list string -> bool.
Variable ParseDuration : string -> option Z.
Variable StringToOptMap : string -> option optMap.

(** The body of the [for { select { ... } }] loop. *)
Fixpoint loop (modval : string) (argmap : optMap) (evs : list event)
    (runC errC : nat) (log : list call) : outcome :=
  match evs with
  | [] => mkOutcome Waiting log 0 runC errC
  | Cancel :: _ => mkOutcome Stopped log 0 runC errC
  | Tick res :: rest =>
      let id := "periodic-" +:+ modval +:+ pretty runC in
      let log' := log ++ [mkCall modval id argmap] in
      let errC' := match res with Some _ => S errC | None => 0 end in
      if (5 <=? errC')%nat then mkOutcome SelfTerminated log' 1 runC errC'
      else loop modval argmap rest (S runC) errC' log'
  end.

Definition get (args : optMap) (k : string) : string :=
  default "" (args !! k).

Definition Run (args : optMap) (evs : list event) : outcome :=
  let rejected := mkOutcome SelfTerminated [] 1 0 0 in
  if negb (CheckForKeys args ["duration"; "module"; "args"]) then rejected
  else
    let dval := get args "duration" in
    let modval := get args "module" in
    let argval := get args "args" in
    match ParseDuration dval with
    | None => rejected
    | Some dur =>
        match StringToOptMap argval with
        | None => rejected
        | Some argmap => loop modval argmap evs 0 0 []
        end
    end.

(** Options that pass the three checks at the head of [Run]. *)
Definition validOptions (args : optMap) : Prop :=
  CheckForKeys args ["duration"; "module"; "args"] = true /\
  is_Some (ParseDuration (get args "duration")) /\
  is_Some (StringToOptMap (get args "args")).
End Run.

(** A concrete daemon: the boundary scenario of a target that always
    fails, run every 10ms. *)
Definition allKeys (args : optMap) (keys : list string) : bool :=
  forallb (fun k => bool_decide (is_Some (args !! k))) keys.

Definition parse10ms (s : string) : option Z :=
  if String.eqb s "10ms" then Some 10000000%Z else None.

Definition noSubArgs (s : string) : option optMap :=
  if String.eqb s "" then Some ∅ else None.

Definition failingArgs : optMap :=
  <["duration" := "10ms"]> (<["module" := "alwaysfails"]> (<["args" := ""]> ∅)).

Definition boom : event := Tick (Some "module failed").

End Periodic.

(* ===================================================================== *)
(** * Errors, panics and Go's database/sql                                *)
(* ===================================================================== *)

Module Go.

(** An [error] value is modelled by its message; [nil] is [None]. *)
Definition error := string.

(** A computation that returns a value or panics. *)
Inductive exec (A : Type) :=
| Ok (a : A)
| Panic (msg : string).
Arguments Ok {A} a.
Arguments Panic {A} msg.

Definition bind {A B} (m : exec A) (k : A -> exec B) : exec B :=
  match m with
  | Ok a => k a
  | Panic msg => Panic msg
  end.

(** [fmt.Sprintf] for formats whose only verb is [%s], applied to string
    operands.  A verb without operand prints as Go prints it; the calls
    modelled here pass exactly as many operands as their template has
    verbs, and operands beyond the verbs are not printed. *)
Fixpoint Sprintf (format : string) (args : list string) : string :=
  match format with
  | EmptyString => ""
  | String "%"%char (String "s"%char rest) =>
      match args with
      | a :: args' => a +:+ Sprintf rest args'
      | [] => "%!s(MISSING)" +:+ Sprintf rest []
      end
  | String c rest => String c (Sprintf rest args)
  end.

(** [s[i]] on a slice: a run-time panic when the index is out of range. *)
Definition index {A} (s : list A) (i : nat) : exec A :=
  match nth_error s i with
  | Some a => Ok a
  | None => Panic "runtime error: index out of range"
  end.

End Go.

(** The part of Go's database/sql that the executor relies on, following
    the package's documented contract: a transaction is open until the
    first [Commit] or [Rollback]; after that every operation on it fails
    with [ErrTxDone].  The database server itself is taken to accept every
    statement. *)
Module sql.
Import Go.

(** A value bound to a placeholder of a statement. *)
Inductive value :=
| VTime (t : Z)
| VStr (s : string)
| VInt (n : Z)
| VIntArr (l : list Z)
| VStrArr (l : list string)
| VBytes (b : string).

Record statement := mkStatement { query : string; params : list value }.

Inductive txState := TxOpen | TxCommitted | TxRolledBack.

Record Tx := mkTx { txState_ : txState; executed : list statement }.

Definition ErrTxDone : error :=
  "sql: transaction has already been committed or rolled back".

Definition Tx_Exec (t : Tx) (q : statement) : Tx * option error :=
  match txState_ t with
  | TxOpen => (mkTx TxOpen (executed t ++ [q]), None)
  | _ => (t, Some ErrTxDone)
  end.

Definition Tx_Commit (t : Tx) : Tx * option error :=
  match txState_ t with
  | TxOpen => (mkTx TxCommitted (executed t), None)
  | _ => (t, Some ErrTxDone)
  end.

Definition Tx_Rollback (t : Tx) : Tx * option error :=
  match txState_ t with
  | TxOpen => (mkTx TxRolledBack (executed t), None)
  | _ => (t, Some ErrTxDone)
  end.

(** A database handle: whether it is still open, and the statements run
    directly on it. *)
Record DB := mkDB { dbOpen : bool; ran : list statement }.

Definition ErrDBClosed : error := "sql: database is closed".

Definition DB_Exec (d : DB) (q : statement) : DB * option error :=
  if dbOpen d then (mkDB true (ran d ++ [q]), None)
  else (d, Some ErrDBClosed).

Definition DB_BeginTx (d : DB) : Tx + error :=
  if dbOpen d then inl (mkTx TxOpen []) else inr ErrDBClosed.

End sql.

(* ===================================================================== *)
(** * The executor and the operation dictionary (package db)              *)
(* ===================================================================== *)

Module Executor.
Import Go sql.

Definition POSTGRES : Z := 0.

Definition CONNECT_NO_SSL := "connectNoSSL".
Definition CONNECT_SSL := "connectSSL".
Definition CHECK_SCHEMA := "checkschema".
Definition SELECT_NODE := "selectNodeTmpl".
Definition INSERT_NODE := "insertNodeTmpl".
Definition INSERT_MAIN_TABLE := "insertMainTableTmpl".
Definition MAKE_MAIN_TABLE := "makeMainTableTmpl".
Definition SELECT_TABLE := "selectTableTmpl".
Definition MAKE_NODE_TABLE := "makeNodeTableTmpl".
Definition MAKE_CAPTURE_TABLE := "makeCaptureTableTmpl".
Definition INSERT_CAPTURE_TABLE := "insertCaptureTableTmpl".

(** The table [dbops]: one template per dialect for each operation.  The
    templates that span several lines in the source are written here on
    one line. *)
Definition dbops : gmap string (list string) :=
  list_to_map [
    (CONNECT_NO_SSL,
      ["user=%s password=%s dbname=%s host=%s sslmode=disable"]);
    (CONNECT_SSL,
      ["user=%s password=%s dbname=%s host=%s"]);
    (CHECK_SCHEMA,
      ["SELECT EXISTS ( SELECT * FROM information_schema.tables WHERE table_name = $1 );"]);
    (SELECT_NODE,
      ["SELECT name, ip, isCollector, tableDumpDurationMinutes, description, coords, address FROM %s;"]);
    (INSERT_NODE,
      ["INSERT INTO %s (name, ip, isCollector, tableDumpDurationMinutes, description, coords, address) VALUES ($1, $2, $3, $4, $5, $6, $7) ON CONFLICT (ip) DO UPDATE SET name=EXCLUDED.name, isCollector=EXCLUDED.isCollector, tableDumpDurationMinutes=EXCLUDED.tableDumpDurationMinutes, description=EXCLUDED.description, coords=EXCLUDED.coords, address=EXCLUDED.address;"]);
    (MAKE_MAIN_TABLE,
      ["CREATE TABLE IF NOT EXISTS %s ( dbname varchar PRIMARY KEY, collector varchar, dateFrom timestamp, dateTo timestamp );"]);
    (INSERT_MAIN_TABLE,
      ["INSERT INTO %s (dbname, collector, dateFrom, dateTo) VALUES ($1, $2, $3, $4);"]);
    (MAKE_CAPTURE_TABLE,
      ["CREATE TABLE IF NOT EXISTS %s ( update_id varchar PRIMARY KEY, timestamp timestamp, collector_ip inet, peer_ip inet, as_path integer[], next_hop inet, origin_as integer, update_withdraw bool, protomsg bytea);"]);
    (INSERT_CAPTURE_TABLE,
      ["INSERT INTO %s (update_id, timestamp, collector_ip, peer_ip, as_path, next_hop, origin_as, update_withdraw, protomsg)"]);
    (SELECT_TABLE,
      ["SELECT dbname, collector, dateFrom, dateTo FROM %s WHERE dateFrom <= $1 AND dateTo > $1;"]);
    (MAKE_NODE_TABLE,
      ["CREATE TABLE IF NOT EXISTS %s ( ip varchar PRIMARY KEY, name varchar, isCollector boolean, tableDumpDurationMinutes integer, description varchar, coords varchar, address varchar );"])
  ].

Record dbOper := mkDbOper { t : Z }.

(** [getdbop]: the template of operation [a] for the dialect of [d];
    panics when the operation or its dialect entry is missing. *)
Definition getdbop (d : dbOper) (a : string) : exec string :=
  match dbops !! a with
  | None => Panic ("nx db op name:" +:+ a +:+ " requested.")
  | Some sslice =>
      if (Z.of_nat (length sslice) - 1 <? t d)%Z
      then Panic ("dbop:" +:+ a +:+ " for this db type not populated")
      else if (t d <? 0)%Z then Panic "runtime error: index out of range"
      else index sslice (Z.to_nat (t d))
  end.

Definition newPostgressDbOper : dbOper := mkDbOper POSTGRES.

(** [ctxTx].  [released] records that the cancel function [cf] of the
    executor's context has been called; the context's deadline itself is
    not modelled. *)
Record ctxTx := mkCtxTx {
  doTx : bool;
  tx : option Tx;
  db : DB;
  released : bool
}.

Definition GetNewExecutor (s : DB) (doTx : bool) : ctxTx + error :=
  if doTx then
    match DB_BeginTx s with
    | inl t => inl (mkCtxTx true (Some t) s false)
    | inr err => inr err
    end
  else inl (mkCtxTx false None s false).

Definition Exec (c : ctxTx) (q : statement) : ctxTx * option error :=
  match doTx c, tx c with
  | true, Some t =>
      let (t', err) := Tx_Exec t q in
      (mkCtxTx (doTx c) (Some t') (db c) (released c), err)
  | _, _ =>
      let (d', err) := DB_Exec (db c) q in
      (mkCtxTx (doTx c) (tx c) d' (released c), err)
  end.

(** [Done]: commits the transaction if there is one, and releases the
    context in every case (the deferred [cf]). *)
Definition Done (ptx : ctxTx) : ctxTx * option error :=
  match doTx ptx, tx ptx with
  | true, Some t =>
      let (t', err) := Tx_Commit t in
      (mkCtxTx (doTx ptx) (Some t') (db ptx) true, err)
  | _, _ => (mkCtxTx (doTx ptx) (tx ptx) (db ptx) true, None)
  end.

(** [ctxtxOperExecutor] embeds a [ctxTx] and a [dbOper].  The slot
    [recorded] is where [SetError] below keeps its error. *)
Record ctxtxOperExecutor := mkCtxtxOperExecutor {
  cex : ctxTx;
  oper : dbOper;
  recorded : option error
}.

Definition newCtxTxSessionExecutor (c : ctxTx) (dbo : dbOper)
  : ctxtxOperExecutor :=
  mkCtxtxOperExecutor c dbo None.

(** Modelled from the spec: [SetError], which [SessionStream.Cancel]
    calls on its executor, is not among the source files, and [ctxTx] as
    declared has no field for an error.  Following the specification
    ("records a sentinel error in the executor"), it stores the error in
    the slot [recorded] and touches nothing else. *)
Definition SetError (e : ctxtxOperExecutor) (err : error)
  : ctxtxOperExecutor :=
  mkCtxtxOperExecutor (cex e) (oper e) (Some err).

(** The promoted methods of the embedded [ctxTx]. *)
Definition exExec (e : ctxtxOperExecutor) (q : statement)
  : ctxtxOperExecutor * option error :=
  let (c', err) := Exec (cex e) q in
  (mkCtxtxOperExecutor c' (oper e) (recorded e), err).

Definition exDone (e : ctxtxOperExecutor)
  : ctxtxOperExecutor * option error :=
  let (c', err) := Done (cex e) in
  (mkCtxtxOperExecutor c' (oper e) (recorded e), err).

(** The state of the executor's transaction, if it has one. *)
Definition txStateOf (e : ctxtxOperExecutor) : option txState :=
  txState_ <$> tx (cex e).

(** Whether the executor is transactional, and the state of its
    transaction. *)
Definition txShape (e : ctxtxOperExecutor) : bool * option txState :=
  (doTx (cex e), txStateOf e).

End Executor.

(* ===================================================================== *)
(** * Helpers of package util                                             *)
(* ===================================================================== *)

Module Util.
Import Go sql Executor.

(** [net.IP]: an IPv4 address by its four bytes; any other value
    (an IPv6 address, or the nil address) by the text its [String] method
    prints. *)
Inductive IP :=
| IPv4 (a b c d : N)
| IPtext (text : string).

Definition IP_String (ip : IP) : string :=
  match ip with
  | IPv4 a b c d =>
      pretty a +:+ "." +:+ pretty b +:+ "." +:+ pretty c +:+ "." +:+ pretty d
  | IPtext text => text
  end.

(** [pb.WriteRequest] is a generated protobuf type that the stream only
    reads through the accessors of package util; a request is modelled by
    what each accessor returns on it. *)
Record WriteRequest := mkWriteRequest {
  GetTimeColIP : Z * IP * option error;
  GetPeerIP : IP * option error;
  GetAsPath : list Z;
  GetNextHop : IP * option error;
  GetAdvertizedPrefixes : list string * option error;
  GetWithdrawnPrefixes : list string * option error;
  GetBgpCaptureString : string
}.

(** Modelled from the spec: [util.InsertBuffer], the [util.SqlBuffer]
    that [util.NewInsertBuffer] builds, is not among the source files.
    Following section 4.3: [Add] appends one row and fails with an argument
    error when the number of values is not the buffer's arity; when the
    number of buffered rows reaches the capacity the buffer issues the
    batch through the executor and clears its rows; [Flush] issues a
    partial batch and does nothing on an empty buffer; after an executor
    error every [Add] returns the stored error.  The executor is the one
    of the stream that owns the buffer, so both operations take it and
    give it back. *)
Record InsertBuffer := mkInsertBuffer {
  stmt : string;
  max : nat;
  arity : nat;
  wrap : bool;
  rows : list (list value);
  stored : option error
}.

(** Modelled from the spec: the constructor of the insert buffer, with
    the statement prefix, the capacity, the arity and the wrap flag. *)
Definition NewInsertBuffer (stmt : string) (max arity : nat) (wrap : bool)
  : InsertBuffer :=
  mkInsertBuffer stmt max arity wrap [] None.

Definition ArgumentError : error := "insert buffer: wrong number of values".

(** Modelled from the spec: one statement per row (the buffer is not
    wrapped), stopping at the first error. *)
Fixpoint issueEach (stmt : string) (rs : list (list value))
    (ex : ctxtxOperExecutor) : ctxtxOperExecutor * option error :=
  match rs with
  | [] => (ex, None)
  | r :: rest =>
      match exExec ex (mkStatement stmt r) with
      | (ex', None) => issueEach stmt rest ex'
      | (ex', Some err) => (ex', Some err)
      end
  end.

(** Modelled from the spec: the batch as one multi-row insert (wrapped)
    or row by row. *)
Definition issue (b : InsertBuffer) (rs : list (list value))
    (ex : ctxtxOperExecutor) : ctxtxOperExecutor * option error :=
  if wrap b then exExec ex (mkStatement (stmt b) (concat rs))
  else issueEach (stmt b) rs ex.

(** Modelled from the spec: [Add] of the insert buffer. *)
Definition BufAdd (b : InsertBuffer) (ex : ctxtxOperExecutor)
    (vals : list value) : InsertBuffer * ctxtxOperExecutor * option error :=
  match stored b with
  | Some err => (b, ex, Some err)
  | None =>
      if negb (length vals =? arity b)%nat then (b, ex, Some ArgumentError)
      else
        let rows' := rows b ++ [vals] in
        if (max b <=? length rows')%nat then
          let (ex', err) := issue b rows' ex in
          (mkInsertBuffer (stmt b) (max b) (arity b) (wrap b) [] err, ex', err)
        else
          (mkInsertBuffer (stmt b) (max b) (arity b) (wrap b) rows' None,
           ex, None)
  end.

(** Modelled from the spec: [Flush] of the insert buffer. *)
Definition BufFlush (b : InsertBuffer) (ex : ctxtxOperExecutor)
  : InsertBuffer * ctxtxOperExecutor * option error :=
  match rows b with
  | [] => (b, ex, None)
  | rs =>
      let (ex', err) := issue b rs ex in
      (mkInsertBuffer (stmt b) (max b) (arity b) (wrap b) []
         (match err with Some e => Some e | None => stored b end),
       ex', err)
  end.

(** Modelled from the spec: [util.WorkerPool] is not among the source
    files.  Following section 4.4 it is a counting semaphore: [Add] takes a
    slot, [Done] gives one back, and [Close] returns once every slot has
    been given back and then refuses further [Add]s. *)
Record WorkerPool := mkWorkerPool {
  capacity : nat;
  outstanding : nat;
  wpClosed : bool
}.

(** Modelled from the spec: a new pool with [n] slots, none taken. *)
Definition NewWorkerPool (n : nat) : WorkerPool := mkWorkerPool n 0 false.

(** Modelled from the spec: [Add] of the worker pool when it can return,
    that is when the pool is open and a slot is free. *)
Definition wpAdd (w : WorkerPool) : option WorkerPool :=
  if wpClosed w then None
  else if (outstanding w <? capacity w)%nat
  then Some (mkWorkerPool (capacity w) (S (outstanding w)) false)
  else None.

(** Modelled from the spec: [Done] of the worker pool. *)
Definition wpDone (w : WorkerPool) : WorkerPool :=
  mkWorkerPool (capacity w) (pred (outstanding w)) (wpClosed w).

(** Modelled from the spec: [Close] of the worker pool when it can
    return, that is when no slot is outstanding. *)
Definition wpClose (w : WorkerPool) : option WorkerPool :=
  if (outstanding w =? 0)%nat then Some (mkWorkerPool (capacity w) 0 true)
  else None.

End Util.

(* ===================================================================== *)
(** * Write streams (package db): the stream's own state                  *)
(* ===================================================================== *)

Module Stream.
Import Go sql Executor Util.

Definition BUFFER_SIZE : nat := 40.

(** [captureMessage]: the table the schema manager resolved and the
    request. *)
Record captureMessage := NewCaptureMessage {
  GetTableName : string;
  GetCapture : WriteRequest
}.

(** The fields of [SessionStream] that its goroutine and its owner mutate.
    The channels [req], [resp] and [cancel] and the worker pool belong to
    the state of the running system, see [Runtime]. *)
Record SessionStream := mkSessionStream {
  closed : bool;
  soper : dbOper;
  ex : ctxtxOperExecutor;
  buffers : gmap string InsertBuffer
}.

(** The row that [addToBuffer] hands to the insert buffer. *)
Definition captureRow (cap : WriteRequest) : option (list value) :=
  let '(ts, colIP, _) := GetTimeColIP cap in
  match GetPeerIP cap with
  | (_, Some _) => None
  | (peerIP, None) =>
      let asPath := GetAsPath cap in
      let nextHop :=
        match GetNextHop cap with
        | (_, Some _) => IPv4 0 0 0 0
        | (ip, None) => ip
        end in
      let origin :=
        if negb (length asPath =? 0)%nat
        then nth (length asPath - 1) asPath 0%Z
        else 0%Z in
      let advertized := fst (GetAdvertizedPrefixes cap) in
      let withdrawn := fst (GetWithdrawnPrefixes cap) in
      let protoMsg := GetBgpCaptureString cap in
      Some [VTime ts; VStr (IP_String colIP); VStr (IP_String peerIP);
            VIntArr asPath; VStr (IP_String nextHop); VInt origin;
            VStrArr advertized; VStrArr withdrawn; VBytes protoMsg]
  end.

Definition addToBuffer (ss : SessionStream) (cMsg : captureMessage)
  : exec (SessionStream * option error) :=
  let tName := GetTableName cMsg in
  bind
    (match buffers ss !! tName with
     | Some buf => Ok (buffers ss, buf)
     | None =>
         bind (getdbop (soper ss) INSERT_CAPTURE_TABLE) (fun tmpl =>
           let buf := NewInsertBuffer (Sprintf tmpl [tName]) BUFFER_SIZE 9 true in
           Ok (<[tName := buf]> (buffers ss), buf))
     end)
    (fun '(bufs, buf) =>
       match captureRow (GetCapture cMsg) with
       | None => Ok (mkSessionStream (closed ss) (soper ss) (ex ss) bufs, None)
       | Some row =>
           let '(buf', ex', err) := BufAdd buf (ex ss) row in
           Ok (mkSessionStream (closed ss) (soper ss) ex'
                 (<[tName := buf']> bufs), err)
       end).

(** The loop of [Flush] over the buffers.  Go leaves the order of a map's
    keys open; the model visits them in the order of [map_to_list].  The
    third component collects what the calls returned, which the source
    drops. *)
Definition flushBuffers (bufs : gmap string InsertBuffer)
    (ex : ctxtxOperExecutor)
  : gmap string InsertBuffer * ctxtxOperExecutor * list (option error) :=
  foldl (fun '(m, e, rets) '(key, buf) =>
           let '(buf', e', ret) := BufFlush buf e in
           (<[key := buf']> m, e', rets ++ [ret]))
        (bufs, ex, []) (map_to_list bufs).


Definition Flush (ss : SessionStream) : SessionStream * option error :=
  let '(bufs', ex', _) := flushBuffers (buffers ss) (ex ss) in
  let (ex'', _) := exDone ex' in
  (mkSessionStream (closed ss) (soper ss) ex'' bufs', None).

Definition errCancelled : error := "Session stream cancelled".

Definition Cancel (ss : SessionStream) : SessionStream * option error :=
  (mkSessionStream (closed ss) (soper ss) (SetError (ex ss) errCancelled)
     (buffers ss), None).

(** The stream as [NewSessionStream] sets it up around a fresh
    transactional executor.  The source drops the error of
    [GetNewExecutor]; the model covers the streams whose transaction was
    begun. *)
Definition newStream (c : ctxTx) (oper : dbOper) : SessionStream :=
  mkSessionStream false oper (newCtxTxSessionExecutor c oper) ∅.

End Stream.

(* ===================================================================== *)
(** * Sessions (package db)                                               *)
(* ===================================================================== *)

Module Session.
Import Go sql Executor Util.

(** [config.SessionConfiger], by what its getters return. *)
Record SessionConfig (NodeConfig : Type) := mkSessionConfig {
  GetTypeName : string;
  GetUser : string;
  GetPassword : string;
  GetDatabaseName : string;
  GetHostNames : list string;
  GetCertDir : string;
  GetConfiguredNodes : list NodeConfig
}.
Arguments mkSessionConfig {NodeConfig}.
Arguments GetTypeName {NodeConfig}.
Arguments GetUser {NodeConfig}.
Arguments GetPassword {NodeConfig}.
Arguments GetDatabaseName {NodeConfig}.
Arguments GetHostNames {NodeConfig}.
Arguments GetCertDir {NodeConfig}.
Arguments GetConfiguredNodes {NodeConfig}.

(** Modelled from the spec: [schemaMgr] is not among the source files.
    Of the schema manager only whether it has been stopped is kept. *)
Record schemaMgr := mkSchemaMgr { stopped : bool }.

(** Modelled from the spec: [stop] of the schema manager. *)
Definition stop (m : schemaMgr) : schemaMgr := mkSchemaMgr true.

Record Session := mkSession {
  uuid : string;
  cancelClosed : bool;     (* the channel [cancel] has been closed *)
  wp : WorkerPool;
  dbo : dbOper;
  db : DB;
  schema : schemaMgr
}.

Definition errPostgresConfig : error :=
  "Postgres sessions require a password and exactly one hostname".
Definition errCockroach : error := "cockroach not yet supported".
Definition errUnknownType : error := "Unknown session type".

Definition nonEmpty (s : string) : bool := negb (String.eqb s "").

(** The connection template that the postgres case of [NewSession]
    picks, or the error it returns instead. *)
Definition postgresConstr (dbo : dbOper) (u p cd : string) (h : list string)
  : exec (string + error) :=
  if (length h =? 1)%nat && nonEmpty p && negb (nonEmpty cd) && nonEmpty u
  then bind (getdbop dbo "connectNoSSL") (fun c => Ok (inl c))
  else if nonEmpty cd && nonEmpty u
  then bind (getdbop dbo "connectSSL") (fun c => Ok (inl c))
  else Ok (inr errPostgresConfig).

(** The two conditions of the postgres case, as propositions. *)
Definition noSSLCriteria {N} (conf : SessionConfig N) : Prop :=
  length (GetHostNames conf) = 1 /\ GetPassword conf <> "" /\
  GetCertDir conf = "" /\ GetUser conf <> "".

Definition sslCriteria {N} (conf : SessionConfig N) : Prop :=
  GetCertDir conf <> "" /\ GetUser conf <> "".

(** The two connection templates of [dbops], spelled out. *)
Definition tmplNoSSL : string :=
  "user=%s password=%s dbname=%s host=%s sslmode=disable".
Definition tmplSSL : string := "user=%s password=%s dbname=%s host=%s".

Section NewSession.
Context {NodeConfig : Type}.
(** [sql.Open], and the schema manager's bootstrap and node
    synchronisation, which are not among the source files. *)
Variable sqlOpen : string -> string -> DB + error.
Variable makeSchema : DB -> string -> string -> string -> option error.
Variable syncNodes : DB -> list NodeConfig -> list NodeConfig.

(** What [NewSession] does once it holds the database handle; the second
    component is the merged node list it prints. *)
Definition bootstrap (conf : SessionConfig NodeConfig) (id : string)
    (nworkers : nat) (dbo : dbOper) (db : DB)
  : exec ((Session * list NodeConfig) + error) :=
  match makeSchema db (GetDatabaseName conf) "dbs" "nodes" with
  | Some err => Ok (inr err)
  | None =>
      let merged := syncNodes db (GetConfiguredNodes conf) in
      Ok (inl (mkSession id false (NewWorkerPool nworkers) dbo db
                 (mkSchemaMgr false), merged))
  end.

(** The postgres case from the template on: format the connection string
    with the first host name, open the handle, bootstrap. *)
Definition openPostgres (conf : SessionConfig NodeConfig) (id : string)
    (nworkers : nat) (dbo : dbOper) (constr : string)
  : exec ((Session * list NodeConfig) + error) :=
  bind (index (GetHostNames conf) 0) (fun h0 =>
    match sqlOpen "postgres"
            (Sprintf constr [GetUser conf; GetPassword conf;
                             GetDatabaseName conf; h0]) with
    | inr err => Ok (inr ("sql open: " +:+ err))
    | inl db => bootstrap conf id nworkers dbo db
    end).

Definition NewSession (conf : SessionConfig NodeConfig) (id : string)
    (nworkers : nat) : exec ((Session * list NodeConfig) + error) :=
  let u := GetUser conf in
  let p := GetPassword conf in
  let h := GetHostNames conf in
  let cd := GetCertDir conf in
  if String.eqb (GetTypeName conf) "postgres" then
    let dbo := newPostgressDbOper in
    bind (postgresConstr dbo u p cd h) (fun c =>
      match c with
      | inr err => Ok (inr err)
      | inl constr => openPostgres conf id nworkers dbo constr
      end)
  else if String.eqb (GetTypeName conf) "cockroachdb" then
    Ok (inr errCockroach)
  else Ok (inr errUnknownType).
End NewSession.

(** How a call of [Session.Close] ends: it returns, it is held in
    [wp.Close] while streams are outstanding, or it panics because the
    cancel channel is closed a second time. *)
Inductive closeResult :=
| Returned (s : Session) (err : option error)
| HeldInWpClose (s : Session)
| ClosePanics (msg : string).

(** [close(s.cancel)], the first statement of [Close]. *)
Definition closeCancel (s : Session) : Session :=
  mkSession (uuid s) true (wp s) (dbo s) (db s) (schema s).

(** [s.wp.Close(); s.schema.stop()], once the pool lets [Close] through. *)
Definition drainAndStop (s : Session) : option Session :=
  match wpClose (wp s) with
  | None => None
  | Some w =>
      Some (mkSession (uuid s) (cancelClosed s) w (dbo s) (db s)
              (stop (schema s)))
  end.

Definition Session_Close (s : Session) : closeResult :=
  if cancelClosed s then ClosePanics "close of closed channel"
  else
    let s1 := closeCancel s in
    match drainAndStop s1 with
    | None => HeldInWpClose s1
    | Some s2 => Returned s2 None
    end.

End Session.

(* ===================================================================== *)
(** * A running write stream: goroutines and channels                     *)
(* ===================================================================== *)

(** One session with one capture write stream.  Four goroutines take
    part: the forwarder that [NewSessionStream] starts, the stream's
    [listen] loop, the stream's owner (who calls [Send], [Flush], [Cancel]
    and [Close] one after the other), and a caller of [Session.Close].
    All channels are unbuffered, so a send and its receive happen in one
    step of the system; a goroutine blocked on a channel operation stays
    at its program point until a partner is there.  A panic in any
    goroutine ends the program. *)
Module Runtime.
Import Go sql Executor Util Stream Session.

(** The forwarder: [select] on the parent's and the stream's cancel
    channel, then [daemon <- false] or [daemon <- true], then
    [close(daemon)]. *)
Inductive fwdPc :=
| FwdSelect
| FwdSend (normal : bool)
| FwdExit.

(** [listen]: at its [select]; sending the reply of [addToBuffer];
    sending the "Channel closed" reply; returned (with [resp] closed by
    the deferred call). *)
Inductive lisPc :=
| LisSelect
| LisReply (err : option error)
| LisReplyClosed
| LisExit.

(** The calls the owner makes on its stream. *)
Inductive op :=
| OpWrite (wr : WriteRequest)
| OpFlush
| OpCancel
| OpClose.

(** The owner: between two calls; in [Send] at [ss.req <- msg]; in
    [Send] at [<-ss.resp]; in [Close] after [close(ss.cancel)]. *)
Inductive ownerPc :=
| Ready
| SendReq (wr : WriteRequest) (msg : captureMessage)
| RecvResp (wr : WriteRequest)
| Closing.

(** The caller of [Session.Close]: not called yet, inside [wp.Close],
    returned. *)
Inductive closerPc :=
| NotCalled
| InWpClose
| CloseReturned.

Record system := mkSystem {
  sess : Session;
  childClosed : bool;      (* ss.cancel *)
  reqClosed : bool;        (* ss.req *)
  respClosed : bool;       (* ss.resp *)
  daemonClosed : bool;     (* the forwarder's channel to [listen] *)
  fwd : fwdPc;
  lis : lisPc;
  stream : SessionStream;
  owner : ownerPc;
  todo : list op;                       (* calls still to be made *)
  returned : list (op * option error);  (* calls that returned, oldest first *)
  closer : closerPc;
  crashed : option string
}.

Definition errChannelClosed : error := "Channel closed".
Definition errRespClosed : error := "Response channel closed".

Section Steps.
(** The schema manager's answer to [getTable] for a collector and a
    time; the schema manager is not among the source files. *)
Variable getTable : string -> Z -> string + error.

Definition crash (s : system) (msg : string) : system :=
  mkSystem (sess s) (childClosed s) (reqClosed s) (respClosed s)
    (daemonClosed s) (fwd s) (lis s) (stream s) (owner s) (todo s)
    (returned s) (closer s) (Some msg).

(** The forwarder's [select]: either closed channel may be taken. *)
Definition fwdSteps (s : system) : list system :=
  match fwd s with
  | FwdSelect =>
      (if cancelClosed (sess s) then
         [mkSystem (sess s) (childClosed s) (reqClosed s) (respClosed s)
            (daemonClosed s) (FwdSend false) (lis s) (stream s) (owner s)
            (todo s) (returned s) (closer s) (crashed s)]
       else []) ++
      (if childClosed s then
         [mkSystem (sess s) (childClosed s) (reqClosed s) (respClosed s)
            (daemonClosed s) (FwdSend true) (lis s) (stream s) (owner s)
            (todo s) (returned s) (closer s) (crashed s)]
       else [])
  | _ => []
  end.

(** [case normal := <-cancel] of [listen], the forwarder handing over
    [normal] and closing its channel afterwards. *)
Definition takeCancel (s : system) (normal : bool) (fwd' : fwdPc)
    (daemonClosed' : bool) : system :=
  let ss := stream s in
  let ss' := mkSessionStream true (soper ss) (ex ss) (buffers ss) in
  if normal then
    mkSystem (sess s) (childClosed s) (reqClosed s) true daemonClosed'
      fwd' LisExit ss' (owner s) (todo s) (returned s) (closer s) (crashed s)
  else
    mkSystem (sess s) (childClosed s) (reqClosed s) (respClosed s)
      daemonClosed' fwd' LisReplyClosed ss' (owner s) (todo s) (returned s)
      (closer s) (crashed s).

(** [case val, ok := <-ss.req] of [listen] with [ok] true: the owner's
    send is taken and the message goes to [addToBuffer]. *)
Definition takeRequest (s : system) (wr : WriteRequest)
    (msg : captureMessage) : system :=
  match addToBuffer (stream s) msg with
  | Ok (ss', err) =>
      mkSystem (sess s) (childClosed s) (reqClosed s) (respClosed s)
        (daemonClosed s) (fwd s) (LisReply err) ss' (RecvResp wr) (todo s)
        (returned s) (closer s) (crashed s)
  | Panic m => crash s m
  end.

Definition lisSteps (s : system) : list system :=
  match lis s with
  | LisSelect =>
      (match fwd s with
       | FwdSend normal => [takeCancel s normal FwdExit true]
       | _ => []
       end) ++
      (if daemonClosed s then [takeCancel s false (fwd s) true] else []) ++
      (match owner s with
       | SendReq wr msg =>
           if reqClosed s then [] else [takeRequest s wr msg]
       | _ => []
       end) ++
      (if reqClosed s then [s] else [])
  | _ => []
  end.

(** The owner's next call returns [err]. *)
Definition ret (s : system) (o : op) (err : option error)
    (lis' : lisPc) (respClosed' : bool) (ss' : SessionStream)
    (rest : list op) : system :=
  mkSystem (sess s) (childClosed s) (reqClosed s) respClosed'
    (daemonClosed s) (fwd s) lis' ss' Ready rest
    (returned s ++ [(o, err)]) (closer s) (crashed s).

(** [Send] up to its channel send: the time and collector of the request,
    then the table from the schema manager. *)
Definition sendPrologue (wr : WriteRequest) : captureMessage + error :=
  match GetTimeColIP wr with
  | (_, _, Some err) => inr err
  | (mtime, cip, None) =>
      match getTable (IP_String cip) mtime with
      | inr err => inr err
      | inl table => inl (NewCaptureMessage table wr)
      end
  end.

Definition ownerSteps (s : system) : list system :=
  match owner s with
  | Ready =>
      match todo s with
      | [] => []
      | OpWrite wr :: rest =>
          match sendPrologue wr with
          | inr err =>
              [ret s (OpWrite wr) (Some err) (lis s) (respClosed s)
                 (stream s) rest]
          | inl msg =>
              [mkSystem (sess s) (childClosed s) (reqClosed s)
                 (respClosed s) (daemonClosed s) (fwd s) (lis s) (stream s)
                 (SendReq wr msg) rest (returned s) (closer s) (crashed s)]
          end
      | OpFlush :: rest =>
          [ret s OpFlush (snd (Flush (stream s))) (lis s) (respClosed s)
             (fst (Flush (stream s))) rest]
      | OpCancel :: rest =>
          [ret s OpCancel (snd (Cancel (stream s))) (lis s) (respClosed s)
             (fst (Cancel (stream s))) rest]
      | OpClose :: rest =>
          if childClosed s then [crash s "close of closed channel"]
          else
            [mkSystem (sess s) true (reqClosed s) (respClosed s)
               (daemonClosed s) (fwd s) (lis s) (stream s) Closing rest
               (returned s) (closer s) (crashed s)]
      end
  | SendReq wr msg =>
      if reqClosed s then [crash s "send on closed channel"] else []
  | RecvResp wr =>
      match lis s with
      | LisReply err =>
          [ret s (OpWrite wr) err LisSelect (respClosed s) (stream s)
             (todo s)]
      | LisReplyClosed =>
          [ret s (OpWrite wr) (Some errChannelClosed) LisExit true
             (stream s) (todo s)]
      | _ =>
          if respClosed s then
            [ret s (OpWrite wr) (Some errRespClosed) (lis s) true
               (stream s) (todo s)]
          else []
      end
  | Closing =>
      if reqClosed s then [crash s "close of closed channel"]
      else
        let se := sess s in
        [mkSystem
           (mkSession (uuid se) (cancelClosed se) (wpDone (wp se)) (dbo se)
              (Session.db se) (schema se))
           (childClosed s) true (respClosed s) (daemonClosed s) (fwd s)
           (lis s) (stream s) Ready (todo s)
           (returned s ++ [(OpClose, None)]) (closer s) (crashed s)]
  end.

(** [Session.Close], which may be called at any moment. *)
Definition closerSteps (s : system) : list system :=
  match closer s with
  | NotCalled =>
      if cancelClosed (sess s) then [crash s "close of closed channel"]
      else
        [mkSystem (closeCancel (sess s)) (childClosed s) (reqClosed s)
           (respClosed s) (daemonClosed s) (fwd s) (lis s) (stream s)
           (owner s) (todo s) (returned s) InWpClose (crashed s)]
  | InWpClose =>
      match drainAndStop (sess s) with
      | None => []
      | Some se =>
          [mkSystem se (childClosed s) (reqClosed s) (respClosed s)
             (daemonClosed s) (fwd s) (lis s) (stream s) (owner s) (todo s)
             (returned s) CloseReturned (crashed s)]
      end
  | CloseReturned => []
  end.

(** Every state the system can be in after one more step. *)
Definition next (s : system) : list system :=
  match crashed s with
  | Some _ => []
  | None => fwdSteps s ++ lisSteps s ++ ownerSteps s ++ closerSteps s
  end.

Definition step (s s' : system) : Prop := In s' (next s).

Definition reachable (s0 s : system) : Prop := rtc step s0 s.

(** The run in which, at each step, the scheduler picks the successor
    with the given index. *)
Fixpoint follow (sched : list nat) (s : system) : option system :=
  match sched with
  | [] => Some s
  | i :: rest =>
      match nth_error (next s) i with
      | Some s' => follow rest s'
      | None => None
      end
  end.

End Steps.

(** What holds in every state of a system started by [openStream]: the
    owner waits for a reply exactly when [listen] is sending one; the
    forwarder reports an abrupt close only after the session's cancel
    channel was closed; once the forwarder has closed its channel [listen]
    has left its loop; [listen] offers "Channel closed" only after a
    session close and with the stream marked closed; it has returned only
    with the stream marked closed and [resp] closed; and the transaction is
    committed only if a [Flush] has returned. *)
Record Inv (s : system) : Prop := mkInv {
  inv_pair :
    (exists wr, owner s = RecvResp wr) <-> (exists r, lis s = LisReply r);
  inv_fwd_abrupt : fwd s = FwdSend false -> cancelClosed (sess s) = true;
  inv_daemon :
    daemonClosed s = true -> lis s = LisReplyClosed \/ lis s = LisExit;
  inv_offer :
    lis s = LisReplyClosed ->
    cancelClosed (sess s) = true /\ closed (stream s) = true;
  inv_exit :
    lis s = LisExit -> closed (stream s) = true /\ respClosed s = true;
  inv_commit :
    txStateOf (ex (stream s)) = Some TxCommitted ->
    In OpFlush (map fst (returned s))
}.

(** [Session.Do] with [SESSION_OPEN_STREAM]: a slot of the worker pool is
    taken and [NewSessionStream] builds the stream around a new
    transaction and starts the forwarder and [listen]; the owner is about
    to make the calls [prog]. *)
Definition openStream (se : Session) (prog : list op) : option system :=
  match wpAdd (wp se), GetNewExecutor (Session.db se) true with
  | Some w, inl c =>
      Some (mkSystem
              (mkSession (uuid se) (cancelClosed se) w (dbo se)
                 (Session.db se) (schema se))
              false false false false FwdSelect LisSelect
              (newStream c (dbo se)) Ready prog [] NotCalled None)
  | _, _ => None
  end.

End Runtime.

(* ===================================================================== *)
(** * Concrete configurations, sessions and requests                      *)
(* ===================================================================== *)

Module Scenario.
Import Go sql Executor Util Stream Session Runtime.

(** An open session on a reachable database, with room for four streams. *)
Definition session0 : Session :=
  mkSession "5f2b" false (NewWorkerPool 4) newPostgressDbOper
    (mkDB true []) (mkSchemaMgr false).

(** A capture of collector 192.0.2.1 whose next hop does not parse. *)
Definition request0 : WriteRequest :=
  mkWriteRequest (1356998400%Z, IPv4 192 0 2 1, None)
    (IPv4 198 51 100 7, None) [64501%Z; 64500%Z]
    (IPtext "<nil>", Some "no next hop") (["10.1.0.0/16"], None) ([], None)
    "bgp capture".

(** A capture with an empty AS-path and a next hop. *)
Definition request1 : WriteRequest :=
  mkWriteRequest (1357002000%Z, IPv4 192 0 2 1, None)
    (IPv4 198 51 100 7, None) [] (IPv4 203 0 113 9, None)
    ([], None) (["10.2.0.0/16"], None) "bgp withdraw".

(** A schema manager that keeps one table per collector and hour. *)
Definition table0 (collector : string) (time : Z) : string + error :=
  inl (collector +:+ "_" +:+ pretty (time / 3600 * 3600)%Z).

Definition transactional0 : ctxTx :=
  mkCtxTx true (Some (mkTx TxOpen [])) (mkDB true []) false.

Definition direct0 : ctxTx := mkCtxTx false None (mkDB true []) false.

Definition stream0 : SessionStream := newStream transactional0 newPostgressDbOper.

(** The rows that belong to the two requests. *)
Definition row0 : list value :=
  [VTime 1356998400; VStr "192.0.2.1"; VStr "198.51.100.7";
   VIntArr [64501%Z; 64500%Z]; VStr "0.0.0.0"; VInt 64500;
   VStrArr ["10.1.0.0/16"]; VStrArr []; VBytes "bgp capture"].

Definition row1 : list value :=
  [VTime 1357002000; VStr "192.0.2.1"; VStr "198.51.100.7"; VIntArr [];
   VStr "203.0.113.9"; VInt 0; VStrArr []; VStrArr ["10.2.0.0/16"];
   VBytes "bgp withdraw"].

Definition message0 : captureMessage :=
  NewCaptureMessage "192.0.2.1_1356998400" request0.



(** The system right after [session0] has opened a stream whose owner
    is about to make the calls [prog]. *)
Definition started (prog : list op) : system :=
  mkSystem
    (mkSession "5f2b" false (mkWorkerPool 4 1 false) newPostgressDbOper
       (mkDB true []) (mkSchemaMgr false))
    false false false false FwdSelect LisSelect stream0 Ready prog []
    NotCalled None.

(** The state a schedule leads to (the start state if the schedule cannot
    be followed). *)
Definition after (sched : list nat) (s : system) : system :=
  default s (follow table0 sched s).

(** The owner writes one capture and closes the stream; then the session
    is closed.  First schedule: the owner's [Send], [listen] takes the
    request and replies, the owner's [Close] in its two steps, the
    forwarder takes the stream's cancel channel and hands [true] to
    [listen], and [Session.Close] runs to its end. *)
Definition ownerClosed : system :=
  after [0; 0; 0; 0; 0; 0; 0; 0; 0] (started [OpWrite request0; OpClose]).

(** The owner is in [Send], blocked at [ss.req <- msg], when the session
    is closed: the owner reaches its send, [Session.Close] closes the
    cancel channel, and the forwarder takes it. *)
Definition abruptSignal : system :=
  after [0; 1; 0] (started [OpWrite request0]).

(** One step later [listen] has taken the forwarder's [false]. *)
Definition abruptClosed : system :=
  after [0; 1; 0; 0] (started [OpWrite request0]).

(** Session configurations. *)
Definition confNoSSL : SessionConfig unit :=
  mkSessionConfig "postgres" "bgpmon" "secret" "bgpmon" ["db.example.net"]
    "" [].

Definition confSSL : SessionConfig unit :=
  mkSessionConfig "postgres" "bgpmon" "" "bgpmon" ["db.example.net"]
    "/etc/bgpmon/certs" [].

Definition confNoPassword : SessionConfig unit :=
  mkSessionConfig "postgres" "bgpmon" "" "bgpmon" ["db.example.net"] "" [].

Definition confSSLNoHost : SessionConfig unit :=
  mkSessionConfig "postgres" "bgpmon" "" "bgpmon" [] "/etc/bgpmon/certs" [].

(** A driver that opens every connection string, and a schema manager
    that bootstraps without error and merges nothing. *)
Definition openAny (driver constr : string) : DB + error :=
  inl (mkDB true []).
Definition schemaOk (d : DB) (dbname main nodes : string) : option error :=
  None.
Definition syncNone (d : DB) (nodes : list unit) : list unit := nodes.

End Scenario.

(* ===================================================================== *)
(** * The hijack task as a whole (package modules)                        *)
(* ===================================================================== *)

Module HijackRun.
Import Hijack.

Definition error := string.

(** A read stream, by its iterator contract: [Read] yields the items one
    after the other and then returns false, after which [Err] is the
    terminal error ([None] on a clean end). *)
Record ReadStream (A : Type) := mkReadStream {
  items : list A;
  Err : option error
}.
Arguments mkReadStream {A}.
Arguments items {A}.
Arguments Err {A}.

(** What the task writes to its logger, by the statement that logs. *)
Inductive report :=
| NeedKeys
| BadStart (text : string)
| BadEnd (text : string)
| EntityError (name : string) (err : error)
| OpenError (err : error)
| StreamError (err : error)
| Scanned (msgCt events : nat).

Section Task.
(** [util.CheckForKeys], [dateparse.ParseAny] (followed by [UTC]), and
    the server's [OpenReadStream] for entities (session, entity name) and
    for captures (session, allowed subnets, start, end). *)
Variable CheckForKeys : gmap string string -> list string -> bool.
Variable ParseAny : string -> Z + error.
Variable OpenEntityStream : string -> string -> ReadStream Entity + error.
Variable OpenCaptureStream :
  string -> list string -> Z -> Z -> ReadStream Capture + error.

Definition errNoEntity : error := "no entity found".

Definition readEntity (session entName : string) : Entity + error :=
  match OpenEntityStream session entName with
  | inr err => inr err
  | inl entityStream =>
      match items entityStream with
      | [] =>
          match Err entityStream with
          | None => inr errNoEntity
          | Some err => inr err
          end
      | entity :: _ => inl entity
      end
  end.

Definition arg (args : gmap string string) (k : string) : string :=
  default "" (args !! k).

Definition Run (args : gmap string string) : report :=
  if negb (CheckForKeys args ["entity"; "start"; "end"; "session"])
  then NeedKeys
  else
    let sessionName := arg args "session" in
    let entityName := arg args "entity" in
    match ParseAny (arg args "start") with
    | inr _ => BadStart (arg args "start")
    | inl start =>
        match ParseAny (arg args "end") with
        | inr _ => BadEnd (arg args "end")
        | inl end_ =>
            match readEntity sessionName entityName with
            | inr err => EntityError entityName err
            | inl entity =>
                match OpenCaptureStream sessionName (OwnedPrefixes entity)
                        start end_ with
                | inr err => OpenError err
                | inl capStream =>
                    let '(msgCt, events) := scan entity (items capStream) in
                    match Err capStream with
                    | Some err => StreamError err
                    | None => Scanned msgCt events
                    end
                end
            end
        end
    end.
End Task.

End HijackRun.

(* ===================================================================== *)
(** * The test helper that writes a file to a stream (db/stream_test.go)  *)
(* ===================================================================== *)

Module StreamTest.
Import Go Util.

Definition maxWriteCt : nat := 1000.

(** What one [Scan] of the MRT reader leads to: [GetCapture] fails, or
    returns a nil capture, or returns a capture. *)
Inductive scanned :=
| ParseError (err : error)
| NoCapture
| Captured (wr : WriteRequest).

Section WriteFile.
(** The [WriteStream] the helper writes to, by its two methods, and
    [fileutil.NewMrtFileReader] by the records the file holds. *)
Variable W : Type.
Variable Write : W -> WriteRequest -> W * option error.
Variable Flush : W -> W * option error.
Variable NewMrtFileReader : string -> list scanned + error.

(** The [for mf.Scan() && parsed < maxWriteCt] loop.  The error is the
    one of the [Write] that made the helper return, if any. *)
Fixpoint writeLoop (recs : list scanned) (parsed : nat) (ws : W)
  : W * nat * option error :=
  match recs with
  | [] => (ws, parsed, None)
  | r :: rest =>
      if (parsed <? maxWriteCt)%nat then
        match r with
        | ParseError _ => writeLoop rest parsed ws
        | NoCapture => writeLoop rest parsed ws
        | Captured wr =>
            match Write ws wr with
            | (ws', Some err) => (ws', S parsed, Some err)
            | (ws', None) => writeLoop rest (S parsed) ws'
            end
        end
      else (ws, parsed, None)
  end.

Definition writeFileToStream (fName : string) (ws : W)
  : W * nat * option error :=
  match NewMrtFileReader fName with
  | inr err => (ws, 0, Some err)
  | inl recs =>
      match writeLoop recs 0 ws with
      | (ws', parsed, Some err) => (ws', parsed, Some err)
      | (ws', parsed, None) =>
          let (ws'', err) := Flush ws' in (ws'', parsed, err)
      end
  end.

(** The captures among the records of a file, in file order. *)
Fixpoint captures (recs : list scanned) : list WriteRequest :=
  match recs with
  | [] => []
  | Captured wr :: rest => wr :: captures rest
  | _ :: rest => captures rest
  end.

(** The stream after the given requests were written to it one after the
    other, whatever the writes returned. *)
Definition writeAll (ws : W) (wrs : list WriteRequest) : W :=
  foldl (fun w wr => fst (Write w wr)) ws wrs.
End WriteFile.

End StreamTest.

(* ===================================================================== *)
(** * More on the running write stream                                    *)
(* ===================================================================== *)

Module RuntimeMore.
Import Go sql Executor Util Stream Session Runtime.

(** The call the owner is inside of, if any. *)
Definition inflight (o : ownerPc) : list op :=
  match o with
  | Ready => []
  | SendReq wr _ => [OpWrite wr]
  | RecvResp wr => [OpWrite wr]
  | Closing => [OpClose]
  end.

(** What holds besides [Inv] in every state of a system started by
    [openStream] with the calls [prog], on a session that had [base] slots
    of its pool taken before: the calls that returned, the call under way
    and the calls still to be made are [prog]; the forwarder reports a
    normal close only after the stream's cancel channel was closed, and
    only then has [listen] returned; the stream is marked closed only when
    [listen] has left its loop; [req] is closed exactly when a [Close]
    has returned; the stream holds its slot until that [Close]; and
    [Session.Close] has returned only with no slot taken. *)
Record Inv2 (prog : list op) (base : nat) (s : system) : Prop := mkInv2 {
  inv_order : map fst (returned s) ++ inflight (owner s) ++ todo s = prog;
  inv_fwd_clean : fwd s = FwdSend true -> childClosed s = true;
  inv_exit_clean : lis s = LisExit -> childClosed s = true;
  inv_closed :
    closed (stream s) = true -> lis s = LisReplyClosed \/ lis s = LisExit;
  inv_req :
    reqClosed s = true ->
    childClosed s = true /\ In OpClose (map fst (returned s));
  inv_close_returned :
    In OpClose (map fst (returned s)) -> reqClosed s = true;
  inv_closing :
    owner s = Closing -> childClosed s = true /\ reqClosed s = false;
  inv_slot :
    outstanding (wp (sess s)) = if reqClosed s then base else S base;
  inv_closer : closer s = CloseReturned -> outstanding (wp (sess s)) = 0
}.

(** The calls of a stream that is used as intended: the writes, then
    [Flush], then [Close]. *)
Definition cleanUse (wrs : list WriteRequest) : list op :=
  map OpWrite wrs ++ [OpFlush; OpClose].

(** The stream after [listen] has handled the given messages one after
    the other (a message whose handling panics leaves it as it is). *)
Definition handled (ss : SessionStream) (msgs : list captureMessage)
  : SessionStream :=
  foldl (fun ss msg =>
           match addToBuffer ss msg with
           | Ok (ss', _) => ss'
           | Panic _ => ss
           end) ss msgs.

End RuntimeMore.

(* ===================================================================== *)
(** * Notions used to state further properties                            *)
(* ===================================================================== *)

Module Derived.
Import Go sql Executor Util Stream Session Runtime.

(** The invocation the periodic task makes with run counter [k]. *)
Definition callOf (modval : string) (argmap : Periodic.optMap) (k : nat)
  : Periodic.call :=
  Periodic.mkCall modval ("periodic-" +:+ modval +:+ pretty k) argmap.

(** The operations that [dbops] knows. *)
Definition knownOps : list string :=
  [CONNECT_NO_SSL; CONNECT_SSL; CHECK_SCHEMA; SELECT_NODE; INSERT_NODE;
   MAKE_MAIN_TABLE; INSERT_MAIN_TABLE; MAKE_CAPTURE_TABLE;
   INSERT_CAPTURE_TABLE; SELECT_TABLE; MAKE_NODE_TABLE].

(** The executor after the given statements were sent through it one
    after the other, with what each [Exec] returned. *)
Definition execAll (c : ctxTx) (qs : list statement)
  : ctxTx * list (option error) :=
  foldl (fun '(c, rets) q => let (c', ret) := Exec c q in (c', rets ++ [ret]))
        (c, []) qs.

(** The capture-insert template of [dbops], spelled out. *)
Definition insertCaptureTmpl : string :=
  "INSERT INTO %s (update_id, timestamp, collector_ip, peer_ip, as_path, next_hop, origin_as, update_withdraw, protomsg)".

(** The buffer [addToBuffer] works on for a table: the registered one, or
    a new one. *)
Definition bufferFor (ss : SessionStream) (tName : string) : InsertBuffer :=
  match buffers ss !! tName with
  | Some buf => buf
  | None =>
      NewInsertBuffer (Sprintf insertCaptureTmpl [tName]) BUFFER_SIZE 9 true
  end.

(** An executor whose transaction is finished. *)
Definition txDone (e : ctxtxOperExecutor) : Prop :=
  doTx (cex e) = true /\
  exists t, tx (cex e) = Some t /\ txState_ t <> TxOpen.


(** The connection string of the no-SSL mode and of the SSL mode. *)
Definition connNoSSL (u p d h : string) : string :=
  "user=" +:+ u +:+ " password=" +:+ p +:+ " dbname=" +:+ d +:+
  " host=" +:+ h +:+ " sslmode=disable".

Definition connSSL (u p d h : string) : string :=
  "user=" +:+ u +:+ " password=" +:+ p +:+ " dbname=" +:+ d +:+
  " host=" +:+ h.

(** A running stream of the postgres dialect between two calls of its
    owner, with nothing closed yet. *)
Record Idle (s : system) : Prop := mkIdle {
  idle_running : crashed s = None;
  idle_owner : owner s = Ready;
  idle_listen : lis s = LisSelect;
  idle_fwd : fwd s = FwdSelect;
  idle_cancel : childClosed s = false;
  idle_req : reqClosed s = false;
  idle_dialect : soper (stream s) = newPostgressDbOper
}.

End Derived.

(* ===================================================================== *)
(** * Further concrete inputs                                             *)
(* ===================================================================== *)

Module ScenarioMore.
Import Go sql Executor Util Stream Session Runtime Hijack StreamTest Scenario.

(** Options of the periodic daemon that lack the duration and the
    sub-options. *)
Definition missingKeys : Periodic.optMap := <["module" := "alwaysfails"]> ∅.

(** Two entities, the second owning what the first owns and more, and a
    capture with the same path once plain and once with its last AS
    prepended. *)
Definition entity0 : Entity :=
  mkEntity "example" "noc@example.net" [64500%Z] ["10.1.0.0/16"].

Definition entity1 : Entity :=
  mkEntity "example-group" "noc@example.net" [64500%Z; 64501%Z]
    ["10.1.0.0/16"; "10.2.0.0/16"].

Definition capture0 : Capture :=
  mkCapture ["10.1.0.0/16"] [64499%Z; 64501%Z].

Definition capture1 : Capture :=
  mkCapture ["10.1.0.0/16"] [64499%Z; 64501%Z; 64501%Z].

(** A write stream that logs its requests and takes [room] of them
    before its writes fail. *)
Definition logWrite (room : nat) (w : list WriteRequest) (wr : WriteRequest)
  : list WriteRequest * option error :=
  (w ++ [wr], if (length w <? room)%nat then None else Some "stream is full").

Definition logFlush (w : list WriteRequest)
  : list WriteRequest * option error := (w, None).

(** A directory with the single file updates.mrt. *)
Definition oneFile (recs : list scanned) (fName : string)
  : list scanned + error :=
  if String.eqb fName "updates.mrt" then inl recs
  else inr "open: no such file or directory".

Definition records0 : list scanned :=
  [ParseError "short read"; Captured request0; NoCapture; Captured request1].

(** Two statements. *)
Definition statement0 : statement :=
  mkStatement "INSERT INTO dbs (name) VALUES ($1)" [VStr "bgpmon"].

Definition statement1 : statement :=
  mkStatement "INSERT INTO nodes (ip) VALUES ($1)" [VStr "192.0.2.1"].

(** A capture whose peer address does not parse. *)
Definition request2 : WriteRequest :=
  mkWriteRequest (1356998400%Z, IPv4 192 0 2 1, None)
    (IPtext "<nil>", Some "no peer address") [64501%Z; 64500%Z]
    (IPv4 203 0 113 9, None) (["10.1.0.0/16"], None) ([], None)
    "bgp capture".

Definition message2 : captureMessage :=
  NewCaptureMessage "192.0.2.1_1356998400" request2.

(** Session configurations: a type that is not served, and an SSL
    configuration with two host names. *)
Definition confCockroach : SessionConfig unit :=
  mkSessionConfig "cockroachdb" "bgpmon" "secret" "bgpmon"
    ["db.example.net"] "" [].

Definition confSSLTwoHosts : SessionConfig unit :=
  mkSessionConfig "postgres" "bgpmon" "" "bgpmon"
    ["db1.example.net"; "db2.example.net"] "/etc/bgpmon/certs" [].

(** The owner has closed its stream and is about to write to it. *)
Definition reused : system :=
  after [0; 1] (started [OpClose; OpWrite request0]).

End ScenarioMore.

(* ===================================================================== *)
(** * Properties of the hijack task                                       *)
(* ===================================================================== *)

Module HijackFacts.
Import Hijack.

Lemma pathHas_In as_ path : pathHas as_ path = true <-> In as_ path.
Proof.
  induction path as [|s rest IH]; simpl; [intuition discriminate|].
  destruct (Z.eqb_spec s as_) as [->|Hne]; [tauto|].
  rewrite IH. intuition congruence.
Qed.

Lemma isEventFrom_spec origins path :
  isEventFrom origins path = true <->
  forall a, In a path -> ~ In a origins.
Proof.
  induction origins as [|o rest IH]; simpl.
  - split; auto.
  - destruct (pathHas o path) eqn:Hp.
    + apply pathHas_In in Hp. split; [discriminate|].
      intros H. exfalso. apply (H o Hp). now left.
    + rewrite IH. split.
      * intros H a Ha [->|Hin]; [|now apply (H a)].
        apply pathHas_In in Ha. congruence.
      * intros H a Ha Hin. apply (H a Ha). now right.
Qed.

Lemma scanFrom_counts ent caps m e :
  scanFrom ent caps m e =
  (m + length caps, e + length (List.filter (isEvent ent) caps)).
Proof.
  revert m e. induction caps as [|c rest IH]; intros m e; simpl.
  - f_equal; lia.
  - destruct (isEvent ent c); rewrite IH; simpl; f_equal; lia.
Qed.

(** C4. A capture read by the hijack task is an event exactly when no
    element of its AS-path equals an AS of the entity's owned-origin
    set; the task's event counter is the number of such captures among
    those read, and its message counter the number of captures read. *)
Theorem isEvent_iff_no_owned_origin_on_path :
  forall (ent : Entity) (cap : Capture) (caps : list Capture),
    (isEvent ent cap = true <->
       forall a, In a (ASPath cap) -> ~ In a (OwnedOrigins ent)) /\
    scan ent caps =
      (length caps, length (List.filter (isEvent ent) caps)).
Proof.
  intros ent cap caps. split.
  - apply isEventFrom_spec.
  - unfold scan. now rewrite scanFrom_counts.
Qed.

End HijackFacts.

(* ===================================================================== *)
(** * Properties of the periodic daemon                                   *)
(* ===================================================================== *)

Module PeriodicFacts.
Import Periodic.

#[local] Arguments Nat.leb : simpl never.

Section Loop.
Variables (modval : string) (argmap : optMap).

Lemma loop_waiting_inv evs : forall r e log o,
  loop modval argmap evs r e log = o -> state o = Waiting ->
  finishes o = 0 /\ length (calls o) = length log + length evs /\
  runC o = r + length evs /\ Forall (fun ev => isTick ev = true) evs.
Proof.
  induction evs as [|ev rest IH]; intros r e log o Ho Hw; simpl in Ho.
  - subst o; simpl. repeat split; auto; lia.
  - destruct ev as [|res]; [subst o; discriminate|].
    destruct (5 <=? _)%nat; [subst o; discriminate|].
    destruct (IH _ _ _ _ Ho Hw) as (Hf & Hc & Hr & Ht).
    rewrite length_app in Hc. simpl in *.
    repeat split; auto; try lia.
Qed.

(** A prefix after which the daemon is still waiting can be cut off. *)
Lemma loop_app pre post : forall r e log,
  state (loop modval argmap pre r e log) = Waiting ->
  loop modval argmap (pre ++ post) r e log =
  loop modval argmap post
    (runC (loop modval argmap pre r e log))
    (errC (loop modval argmap pre r e log))
    (calls (loop modval argmap pre r e log)).
Proof.
  induction pre as [|ev rest IH]; intros r e log Hw; simpl in *; auto.
  destruct ev as [|res]; [discriminate|].
  destruct (5 <=? _)%nat; [discriminate|]. now apply IH.
Qed.

(** Once the daemon has returned, later events change nothing. *)
Lemma loop_app_returned pre post : forall r e log,
  state (loop modval argmap pre r e log) <> Waiting ->
  loop modval argmap (pre ++ post) r e log =
  loop modval argmap pre r e log.
Proof.
  induction pre as [|ev rest IH]; intros r e log Hw; simpl in *.
  - congruence.
  - destruct ev as [|res]; auto.
    destruct (5 <=? _)%nat; auto.
Qed.

Lemma loop_five w post r log :
  fiveFailures w ->
  let o := loop modval argmap (w ++ post) r 0 log in
  state o = SelfTerminated /\ finishes o = 1 /\ errC o = 5 /\
  exists cs, calls o = log ++ cs /\ length cs = 5.
Proof.
  intros [Hlen Hall].
  do 5 (destruct w as [|[|[?|]] w];
        [discriminate| | |];
        try (exfalso; inversion Hall; subst; simpl in *; discriminate);
        apply Forall_inv_tail in Hall).
  destruct w; [|discriminate].
  do 5 (simpl; cbv [Nat.leb]). simpl.
  repeat split; auto.
  rewrite <- !app_assoc. eexists. split; [reflexivity|reflexivity].
Qed.

(** If the loop ends by self-termination, the events it consumed end
    in failed ticks that bring the counter from [e] to five. *)
Lemma loop_terminated_window evs : forall r e log,
  e < 5 ->
  state (loop modval argmap evs r e log) = SelfTerminated ->
  exists pre w post,
    evs = pre ++ w ++ post /\
    Forall (fun ev => failed ev = true) w /\
    (length w = 5 \/ (pre = [] /\ length w + e = 5)) /\
    length (calls (loop modval argmap evs r e log)) =
      length log + length pre + length w /\
    finishes (loop modval argmap evs r e log) = 1.
Proof.
  induction evs as [|ev rest IH]; intros r e log He Hs; simpl in *.
  - discriminate.
  - destruct ev as [|res]; [discriminate|].
    destruct res as [x|].
    + destruct (Nat.leb_spec 5 (S e)) as [Hge|Hlt].
      * exists [], [Tick (Some x)], rest. simpl.
        rewrite length_app. simpl.
        repeat split; auto; try lia.
        right. split; auto. lia.
      * destruct (IH (S r) (S e) _ Hlt Hs)
          as (pre & w & post & -> & Hall & Hlen & Hc & Hf).
        rewrite length_app in Hc. simpl in Hc.
        destruct Hlen as [Hlen|[-> Hlen]].
        -- exists (Tick (Some x) :: pre), w, post. simpl.
           repeat split; auto. lia.
        -- exists [], (Tick (Some x) :: w), post. simpl in *.
           repeat split; auto; try lia.
           right. split; auto. lia.
    + simpl in Hs.
      destruct (IH (S r) 0 _ ltac:(lia) Hs)
        as (pre & w & post & -> & Hall & Hlen & Hc & Hf).
      rewrite length_app in Hc. simpl in Hc.
      exists (Tick None :: pre), w, post. simpl.
      repeat split; auto; [|lia].
      left. destruct Hlen as [?|[_ ?]]; lia.
Qed.

Lemma loop_not_stopped evs : forall r e log,
  Forall (fun ev => isTick ev = true) evs ->
  state (loop modval argmap evs r e log) <> Stopped.
Proof.
  induction evs as [|ev rest IH]; intros r e log Hall; simpl.
  - discriminate.
  - destruct ev as [|res]; [inversion Hall; discriminate|].
    destruct (5 <=? _)%nat; [discriminate|].
    apply IH. now inversion Hall.
Qed.
End Loop.

Section Daemon.
Variable CheckForKeys : optMap -> list string -> bool.
Variable ParseDuration : string -> option Z.
Variable StringToOptMap : string -> option optMap.

#[local] Abbreviation Run := (Run CheckForKeys ParseDuration StringToOptMap).
#[local] Abbreviation validOptions :=
  (validOptions CheckForKeys ParseDuration StringToOptMap).

Lemma Run_valid args :
  validOptions args ->
  exists modval argmap, forall evs,
    Run args evs = loop modval argmap evs 0 0 [].
Proof.
  intros (Hk & [d Hd] & [m Hm]).
  exists (get args "module"), m. intros evs.
  unfold Periodic.Run. now rewrite Hk, Hd, Hm.
Qed.

(** C3. With valid options: five consecutive failed ticks, arriving
    while the daemon waits with a zero failure counter, make it call
    its finish function once and return after exactly those five
    invocations; a successful tick puts the counter back to zero;
    whenever the daemon self-terminates, the invocations it made end
    with five consecutive failures; and a run of ticks without five
    consecutive failures never makes it terminate. *)
Theorem periodic_terminates_after_five_consecutive_failures :
  forall args : optMap,
    validOptions args ->
    (forall pre w post,
        state (Run args pre) = Waiting -> errC (Run args pre) = 0 ->
        fiveFailures w ->
        state (Run args (pre ++ w ++ post)) = SelfTerminated /\
        finishes (Run args (pre ++ w ++ post)) = 1 /\
        length (calls (Run args (pre ++ w ++ post))) = length pre + 5) /\
    (forall pre,
        state (Run args pre) = Waiting ->
        state (Run args (pre ++ [Tick None])) = Waiting /\
        errC (Run args (pre ++ [Tick None])) = 0) /\
    (forall evs,
        state (Run args evs) = SelfTerminated ->
        exists pre w post,
          evs = pre ++ w ++ post /\ fiveFailures w /\
          finishes (Run args evs) = 1 /\
          length (calls (Run args evs)) = length pre + 5) /\
    (forall evs,
        Forall (fun ev => isTick ev = true) evs ->
        (forall pre w post, evs = pre ++ w ++ post -> ~ fiveFailures w) ->
        state (Run args evs) = Waiting /\
        finishes (Run args evs) = 0 /\
        length (calls (Run args evs)) = length evs).
Proof.
  intros args Hv. destruct (Run_valid args Hv) as (modval & argmap & HR).
  split; [|split; [|split]].
  - intros pre w post Hw He Hfive. rewrite !HR in *.
    rewrite loop_app by assumption. rewrite He.
    destruct (loop_five modval argmap w post
                (runC (loop modval argmap pre 0 0 []))
                (calls (loop modval argmap pre 0 0 [])) Hfive)
      as (Hst & Hfin & _ & cs & Hcs & Hlen).
    split; [exact Hst|]. split; [exact Hfin|].
    destruct (loop_waiting_inv modval argmap pre _ _ _ _ eq_refl Hw)
      as (_ & Hc & _).
    rewrite Hcs, length_app. simpl in Hc. lia.
  - intros pre Hw. rewrite !HR in *.
    rewrite loop_app by assumption. simpl. now cbv [Nat.leb].
  - intros evs Hs. rewrite !HR in *.
    destruct (loop_terminated_window modval argmap evs 0 0 []
                ltac:(lia) Hs)
      as (pre & w & post & -> & Hall & Hlen & Hc & Hf).
    exists pre, w, post. simpl in Hc.
    assert (length w = 5) by (destruct Hlen as [?|[_ ?]]; lia).
    split; [reflexivity|]. split; [now split|]. split; [exact Hf|lia].
  - intros evs Hticks Hno. rewrite !HR.
    destruct (state (loop modval argmap evs 0 0 [])) eqn:Hs.
    + destruct (loop_waiting_inv modval argmap evs _ _ _ _ eq_refl Hs)
        as (Hf & Hc & _).
      split; [reflexivity|]. split; [exact Hf|exact Hc].
    + exfalso. now apply (loop_not_stopped modval argmap evs 0 0 []).
    + exfalso.
      destruct (loop_terminated_window modval argmap evs 0 0 []
                  ltac:(lia) Hs)
        as (pre & w & post & -> & Hall & Hlen & _).
      apply (Hno pre w post eq_refl). split; [|exact Hall].
      destruct Hlen as [?|[_ ?]]; lia.
Qed.
End Daemon.

Lemma periodic_terminates_after_five_consecutive_failures_witness :
  validOptions allKeys parse10ms noSubArgs failingArgs /\
  state (Run allKeys parse10ms noSubArgs failingArgs
           ([] ++ [boom; boom; boom; boom; boom] ++ [boom; boom]))
    = SelfTerminated /\
  finishes (Run allKeys parse10ms noSubArgs failingArgs
           ([] ++ [boom; boom; boom; boom; boom] ++ [boom; boom])) = 1 /\
  length (calls (Run allKeys parse10ms noSubArgs failingArgs
           ([] ++ [boom; boom; boom; boom; boom] ++ [boom; boom])))
    = length (@nil event) + 5.
Proof.
  assert (Hv : validOptions allKeys parse10ms noSubArgs failingArgs).
  { split; [vm_compute; reflexivity|].
    split; eexists; vm_compute; reflexivity. }
  split; [exact Hv|].
  apply (periodic_terminates_after_five_consecutive_failures
           allKeys parse10ms noSubArgs failingArgs Hv).
  - vm_compute; reflexivity.
  - vm_compute; reflexivity.
  - split; [reflexivity|]. repeat constructor.
Defined.

End PeriodicFacts.

(* ===================================================================== *)
(** * Properties of the executor                                          *)
(* ===================================================================== *)

Module ExecutorFacts.
Import Go sql Executor Util Stream Scenario.

Lemma Done_direct c :
  doTx c = false \/ tx c = None -> snd (Done c) = None.
Proof.
  unfold Done. intros [H|H]; rewrite H; [reflexivity|].
  now destruct (doTx c).
Qed.

Lemma Done_keeps_shape c :
  doTx (fst (Done c)) = doTx c /\
  (tx c = None <-> tx (fst (Done c)) = None) /\
  released (fst (Done c)) = true.
Proof.
  unfold Done. destruct (doTx c) eqn:Hd, (tx c) as [t|] eqn:Ht; simpl;
    try (destruct (Tx_Commit t)); simpl; rewrite ?Hd, ?Ht;
    repeat split; intros; congruence.
Qed.

Lemma Commit_twice t :
  snd (Tx_Commit (fst (Tx_Commit t))) = Some ErrTxDone.
Proof.
  unfold Tx_Commit.
  destruct (txState_ t) eqn:E; simpl; rewrite ?E; reflexivity.
Qed.

Lemma Done_twice_transactional c t :
  doTx c = true -> tx c = Some t ->
  snd (Done (fst (Done c))) = Some ErrTxDone.
Proof.
  intros Hd Ht.
  assert (Hfst : fst (Done c) =
                 mkCtxTx true (Some (fst (Tx_Commit t))) (db c) true).
  { unfold Done. rewrite Hd, Ht. now destruct (Tx_Commit t). }
  rewrite Hfst. unfold Done. simpl.
  pose proof (Commit_twice t) as H2.
  now destruct (Tx_Commit (fst (Tx_Commit t))).
Qed.

Lemma Done_open_commits c t :
  doTx c = true -> tx c = Some t -> txState_ t = TxOpen ->
  snd (Done c) = None /\
  txState_ <$> tx (fst (Done c)) = Some TxCommitted.
Proof.
  intros Hd Ht Ho. unfold Done, Tx_Commit. rewrite Hd, Ht, Ho. now simpl.
Qed.

(** C5 (as amended). [Done] releases the executor's context on every
    call.  On a direct executor every call returns nil, so there it is
    idempotent.  On a transactional executor whose transaction is open the
    first call commits and returns nil, but the second call commits the
    finished transaction again and returns the transaction-done error. *)
Theorem Done_second_call :
  forall c : ctxTx,
    released (fst (Done c)) = true /\
    (doTx c = false \/ tx c = None ->
       snd (Done c) = None /\ snd (Done (fst (Done c))) = None) /\
    (forall t, doTx c = true -> tx c = Some t ->
       (txState_ t = TxOpen ->
          snd (Done c) = None /\
          txState_ <$> tx (fst (Done c)) = Some TxCommitted) /\
       snd (Done (fst (Done c))) = Some ErrTxDone).
Proof.
  intros c. split; [apply Done_keeps_shape|]. split.
  - intros H. split; [now apply Done_direct|].
    apply Done_direct.
    destruct (Done_keeps_shape c) as (Hd & Ht & _).
    destruct H as [H|H]; [left; congruence|right; now apply Ht].
  - intros t Hd Ht. split.
    + now apply Done_open_commits.
    + now apply (Done_twice_transactional c t).
Qed.

(** C5, the claim as stated fails: on a transactional executor the
    second [Done] does not return nil. *)
Lemma Done_not_idempotent_on_transaction :
  GetNewExecutor (mkDB true []) true = inl transactional0 /\
  snd (Done transactional0) = None /\
  snd (Done (fst (Done transactional0))) = Some ErrTxDone /\
  snd (Done (fst (Done transactional0))) <> None.
Proof. repeat split; discriminate. Qed.

Lemma Done_second_call_witness :
  released (fst (Done transactional0)) = true /\
  (snd (Done transactional0) = None /\
   txState_ <$> tx (fst (Done transactional0)) = Some TxCommitted) /\
  snd (Done (fst (Done transactional0))) = Some ErrTxDone /\
  snd (Done direct0) = None /\ snd (Done (fst (Done direct0))) = None.
Proof.
  pose proof (Done_second_call transactional0) as (Hr & _ & Ht).
  pose proof (Done_second_call direct0) as (_ & Hd & _).
  destruct (Ht (mkTx TxOpen []) eq_refl eq_refl) as (Ho & H2).
  split; [exact Hr|]. split; [exact (Ho eq_refl)|]. split; [exact H2|].
  exact (Hd (or_introl eq_refl)).
Defined.

(** Whatever [SetError] has recorded, [Done] on an open transaction
    commits it. *)
Lemma exDone_ignores_recorded e err t :
  doTx (cex e) = true -> tx (cex e) = Some t -> txState_ t = TxOpen ->
  recorded (SetError e err) = Some err /\
  snd (exDone (SetError e err)) = None /\
  txStateOf (fst (exDone (SetError e err))) = Some TxCommitted /\
  recorded (fst (exDone (SetError e err))) = Some err.
Proof.
  intros Hd Ht Ho. unfold exDone, SetError, txStateOf. simpl.
  destruct (Done_open_commits (cex e) t Hd Ht Ho) as (Hn & Hc).
  destruct (Done (cex e)) as [c' r]. simpl in *. now subst.
Qed.

(** C2, at the failing input: a new write stream is cancelled and its
    executor's [Done] is called.  [Cancel] has recorded its error, and
    [Done] returns nil with the transaction committed, not rolled back. *)
Theorem Cancel_then_Done_commits :
  let ss := fst (Cancel stream0) in
  snd (Cancel stream0) = None /\
  recorded (ex ss) = Some errCancelled /\
  txStateOf (ex ss) = Some TxOpen /\
  snd (exDone (ex ss)) = None /\
  txStateOf (fst (exDone (ex ss))) = Some TxCommitted /\
  txStateOf (fst (exDone (ex ss))) <> Some TxRolledBack.
Proof.
  destruct (exDone_ignores_recorded (ex stream0) errCancelled
              (mkTx TxOpen []) eq_refl eq_refl eq_refl)
    as (Hrec & Hret & Hst & _).
  cbv zeta.
  change (ex (fst (Cancel stream0)))
    with (SetError (ex stream0) errCancelled).
  rewrite Hst. repeat split; try assumption; try reflexivity.
  discriminate.
Qed.

End ExecutorFacts.

(* ===================================================================== *)
(** * Properties of sessions                                              *)
(* ===================================================================== *)

Module SessionFacts.
Import Go sql Executor Util Session Scenario.

Lemma getdbop_connectNoSSL :
  getdbop newPostgressDbOper "connectNoSSL" = Ok tmplNoSSL.
Proof. reflexivity. Qed.

Lemma getdbop_connectSSL :
  getdbop newPostgressDbOper "connectSSL" = Ok tmplSSL.
Proof. reflexivity. Qed.

Lemma nonEmpty_true s : nonEmpty s = true <-> s <> "".
Proof.
  unfold nonEmpty. destruct (String.eqb_spec s ""); simpl; split;
    congruence.
Qed.

Lemma nonEmpty_false s : nonEmpty s = false <-> s = "".
Proof.
  unfold nonEmpty. destruct (String.eqb_spec s ""); simpl; split;
    congruence.
Qed.

Lemma noSSL_test {N} (conf : SessionConfig N) :
  ((length (GetHostNames conf) =? 1)%nat && nonEmpty (GetPassword conf)
   && negb (nonEmpty (GetCertDir conf)) && nonEmpty (GetUser conf)) = true
  <-> noSSLCriteria conf.
Proof.
  unfold noSSLCriteria.
  rewrite !andb_true_iff, negb_true_iff, Nat.eqb_eq, !nonEmpty_true,
    nonEmpty_false.
  tauto.
Qed.

Lemma ssl_test {N} (conf : SessionConfig N) :
  (nonEmpty (GetCertDir conf) && nonEmpty (GetUser conf)) = true
  <-> sslCriteria conf.
Proof.
  unfold sslCriteria. now rewrite andb_true_iff, !nonEmpty_true.
Qed.

Section Constructor.
Context {NodeConfig : Type}.
Variable sqlOpen : string -> string -> DB + error.
Variable makeSchema : DB -> string -> string -> string -> option error.
Variable syncNodes : DB -> list NodeConfig -> list NodeConfig.

#[local] Abbreviation NewSession := (NewSession sqlOpen makeSchema syncNodes).
#[local] Abbreviation openPostgres :=
  (openPostgres sqlOpen makeSchema syncNodes).

(** The postgres case of [NewSession], by the template it picks. *)
Lemma NewSession_postgres (conf : SessionConfig NodeConfig) id nworkers :
  GetTypeName conf = "postgres" ->
  NewSession conf id nworkers =
    bind (postgresConstr newPostgressDbOper (GetUser conf)
            (GetPassword conf) (GetCertDir conf) (GetHostNames conf))
      (fun c => match c with
                | inr err => Ok (inr err)
                | inl constr =>
                    openPostgres conf id nworkers newPostgressDbOper constr
                end).
Proof. intros Hty. unfold Session.NewSession. now rewrite Hty. Qed.

Lemma postgresConstr_noSSL (conf : SessionConfig NodeConfig) :
  noSSLCriteria conf ->
  postgresConstr newPostgressDbOper (GetUser conf) (GetPassword conf)
    (GetCertDir conf) (GetHostNames conf) = Ok (inl tmplNoSSL).
Proof.
  intros Hc. unfold postgresConstr. apply noSSL_test in Hc. now rewrite Hc.
Qed.

Lemma postgresConstr_SSL (conf : SessionConfig NodeConfig) :
  sslCriteria conf ->
  postgresConstr newPostgressDbOper (GetUser conf) (GetPassword conf)
    (GetCertDir conf) (GetHostNames conf) = Ok (inl tmplSSL).
Proof.
  intros Hs. unfold postgresConstr.
  destruct (_ && _ && _ && _) eqn:H1.
  - apply noSSL_test in H1. destruct H1 as (_ & _ & Hcd & _).
    now destruct Hs.
  - apply ssl_test in Hs. now rewrite Hs.
Qed.

Lemma postgresConstr_neither (conf : SessionConfig NodeConfig) :
  ~ noSSLCriteria conf -> ~ sslCriteria conf ->
  postgresConstr newPostgressDbOper (GetUser conf) (GetPassword conf)
    (GetCertDir conf) (GetHostNames conf) = Ok (inr errPostgresConfig).
Proof.
  intros Hn Hs. unfold postgresConstr.
  destruct (_ && _ && _ && _) eqn:H1.
  - apply noSSL_test in H1. contradiction.
  - destruct (nonEmpty (GetCertDir conf) && nonEmpty (GetUser conf))
      eqn:H2; [|reflexivity].
    apply ssl_test in H2. contradiction.
Qed.

(** C7. For a postgres configuration the session constructor takes the
    no-SSL template when there is exactly one host name, a password, a
    user and no certificate directory; it takes the SSL template when
    there are a certificate directory and a user; in every other case it
    returns the configuration error and no session. *)
Theorem NewSession_postgres_template :
  forall (conf : SessionConfig NodeConfig) (id : string) (nworkers : nat),
    GetTypeName conf = "postgres" ->
    (noSSLCriteria conf ->
       postgresConstr newPostgressDbOper (GetUser conf) (GetPassword conf)
         (GetCertDir conf) (GetHostNames conf) = Ok (inl tmplNoSSL) /\
       NewSession conf id nworkers =
         openPostgres conf id nworkers newPostgressDbOper tmplNoSSL) /\
    (sslCriteria conf ->
       postgresConstr newPostgressDbOper (GetUser conf) (GetPassword conf)
         (GetCertDir conf) (GetHostNames conf) = Ok (inl tmplSSL) /\
       NewSession conf id nworkers =
         openPostgres conf id nworkers newPostgressDbOper tmplSSL) /\
    (~ noSSLCriteria conf -> ~ sslCriteria conf ->
       NewSession conf id nworkers = Ok (inr errPostgresConfig)).
Proof.
  intros conf id nworkers Hty.
  pose proof (NewSession_postgres conf id nworkers Hty) as HN.
  split; [|split].
  - intros Hc. pose proof (postgresConstr_noSSL conf Hc) as Hp.
    split; [exact Hp|]. now rewrite HN, Hp.
  - intros Hs. pose proof (postgresConstr_SSL conf Hs) as Hp.
    split; [exact Hp|]. now rewrite HN, Hp.
  - intros Hn Hs. now rewrite HN, (postgresConstr_neither conf Hn Hs).
Qed.

(** C10. A postgres configuration with a certificate directory and a
    user but no host name makes the session constructor panic on [h[0]];
    it does not return the configuration error. *)
Theorem NewSession_ssl_without_host_panics :
  forall (conf : SessionConfig NodeConfig) (id : string) (nworkers : nat),
    GetTypeName conf = "postgres" ->
    GetCertDir conf <> "" -> GetUser conf <> "" ->
    GetHostNames conf = [] ->
    NewSession conf id nworkers = Panic "runtime error: index out of range" /\
    NewSession conf id nworkers <> Ok (inr errPostgresConfig).
Proof.
  intros conf id nworkers Hty Hcd Hu Hh.
  rewrite (NewSession_postgres conf id nworkers Hty).
  rewrite (postgresConstr_SSL conf (conj Hcd Hu)). cbn [bind].
  unfold Session.openPostgres. rewrite Hh. simpl. split; [reflexivity|].
  discriminate.
Qed.
End Constructor.

Lemma NewSession_postgres_template_witness :
  GetTypeName confNoSSL = "postgres" /\
  NewSession openAny schemaOk syncNone confNoSSL "5f2b" 4 =
    openPostgres openAny schemaOk syncNone confNoSSL "5f2b" 4
      newPostgressDbOper tmplNoSSL /\
  NewSession openAny schemaOk syncNone confSSL "5f2b" 4 =
    openPostgres openAny schemaOk syncNone confSSL "5f2b" 4
      newPostgressDbOper tmplSSL /\
  NewSession openAny schemaOk syncNone confNoPassword "5f2b" 4 =
    Ok (inr errPostgresConfig).
Proof.
  pose proof (NewSession_postgres_template openAny schemaOk syncNone
                confNoSSL "5f2b" 4 eq_refl) as (H1 & _ & _).
  pose proof (NewSession_postgres_template openAny schemaOk syncNone
                confSSL "5f2b" 4 eq_refl) as (_ & H2 & _).
  pose proof (NewSession_postgres_template openAny schemaOk syncNone
                confNoPassword "5f2b" 4 eq_refl) as (_ & _ & H3).
  split; [reflexivity|]. split; [|split].
  - apply H1. unfold noSSLCriteria. simpl.
    repeat split; try reflexivity; discriminate.
  - apply H2. unfold sslCriteria. simpl. split; discriminate.
  - apply H3.
    + intros (_ & Hp & _). now apply Hp.
    + intros (Hcd & _). now apply Hcd.
Defined.

Lemma NewSession_ssl_without_host_panics_witness :
  GetTypeName confSSLNoHost = "postgres" /\
  GetCertDir confSSLNoHost <> "" /\ GetUser confSSLNoHost <> "" /\
  GetHostNames confSSLNoHost = [] /\
  NewSession openAny schemaOk syncNone confSSLNoHost "5f2b" 4 =
    Panic "runtime error: index out of range".
Proof.
  assert (Hcd : GetCertDir confSSLNoHost <> "") by discriminate.
  assert (Hu : GetUser confSSLNoHost <> "") by discriminate.
  split; [reflexivity|]. split; [exact Hcd|]. split; [exact Hu|].
  split; [reflexivity|].
  apply (NewSession_ssl_without_host_panics openAny schemaOk syncNone
           confSSLNoHost "5f2b" 4 eq_refl Hcd Hu eq_refl).
Defined.

(** C6 (as amended). Called on a session whose cancel channel is still
    open, [Close] closes that channel and enters [wp.Close]; when no
    stream is outstanding it returns nil with the worker pool closed and
    the schema manager stopped, and otherwise it is held there with the
    schema manager untouched.  In both cases the database handle is left
    as it was: [Close] does not close it. *)
Theorem Session_Close_effects :
  forall s : Session,
    cancelClosed s = false ->
    match Session_Close s with
    | Returned s' err =>
        outstanding (wp s) = 0 /\ err = None /\
        cancelClosed s' = true /\ wpClosed (wp s') = true /\
        stopped (schema s') = true /\ Session.db s' = Session.db s
    | HeldInWpClose s' =>
        outstanding (wp s) <> 0 /\
        cancelClosed s' = true /\ wp s' = wp s /\
        schema s' = schema s /\ Session.db s' = Session.db s
    | ClosePanics _ => False
    end.
Proof.
  intros s Hc. unfold Session_Close, drainAndStop, closeCancel, wpClose.
  rewrite Hc. simpl.
  destruct (Nat.eqb_spec (outstanding (wp s)) 0) as [H0|H0]; simpl;
    repeat split; auto.
Qed.

(** C6, the claim as stated fails: after [Close] has returned, the
    database handle of the session is still open. *)
Lemma Session_Close_leaves_db_open :
  exists s', Session_Close session0 = Returned s' None /\
             cancelClosed s' = true /\ wpClosed (wp s') = true /\
             stopped (schema s') = true /\
             dbOpen (Session.db s') = true.
Proof. eexists. repeat split. Qed.

Lemma Session_Close_effects_witness :
  cancelClosed session0 = false /\
  match Session_Close session0 with
  | Returned s' err =>
      outstanding (wp session0) = 0 /\ err = None /\
      cancelClosed s' = true /\ wpClosed (wp s') = true /\
      stopped (schema s') = true /\ Session.db s' = Session.db session0
  | HeldInWpClose s' =>
      outstanding (wp session0) <> 0 /\
      cancelClosed s' = true /\ wp s' = wp session0 /\
      schema s' = schema session0 /\ Session.db s' = Session.db session0
  | ClosePanics _ => False
  end.
Proof.
  split; [reflexivity|]. exact (Session_Close_effects session0 eq_refl).
Defined.

End SessionFacts.

(* ===================================================================== *)
(** * Properties of the write stream's own operations                     *)
(* ===================================================================== *)

Module StreamFacts.
Import Go sql Executor Util Stream Scenario.

Lemma origin_is_last (asPath : list Z) :
  (if negb (length asPath =? 0)%nat
   then nth (length asPath - 1) asPath 0%Z else 0%Z)
  = default 0%Z (last asPath).
Proof.
  destruct asPath as [|a rest] using rev_ind; [reflexivity|].
  rewrite last_snoc, length_app. simpl.
  replace (length rest + 1 - 1) with (length rest) by lia.
  rewrite nth_middle.
  destruct (Nat.eqb_spec (length rest + 1) 0); [lia|reflexivity].
Qed.

Lemma captureRow_Some cap row :
  captureRow cap = Some row ->
  snd (GetPeerIP cap) = None /\
  row =
    [VTime (fst (fst (GetTimeColIP cap)));
     VStr (IP_String (snd (fst (GetTimeColIP cap))));
     VStr (IP_String (fst (GetPeerIP cap)));
     VIntArr (GetAsPath cap);
     VStr (IP_String (match GetNextHop cap with
                      | (_, Some _) => IPv4 0 0 0 0
                      | (ip, None) => ip
                      end));
     VInt (default 0%Z (last (GetAsPath cap)));
     VStrArr (fst (GetAdvertizedPrefixes cap));
     VStrArr (fst (GetWithdrawnPrefixes cap));
     VBytes (GetBgpCaptureString cap)].
Proof.
  unfold captureRow.
  destruct (GetTimeColIP cap) as [[ts colIP] e0].
  destruct (GetPeerIP cap) as [peerIP [e1|]]; [discriminate|].
  intros [= <-]. rewrite origin_is_last. now split.
Qed.

Lemma addToBuffer_fresh ss table cap row :
  soper ss = newPostgressDbOper ->
  buffers ss !! table = None ->
  captureRow cap = Some row ->
  exists ss',
    addToBuffer ss (NewCaptureMessage table cap) = Ok (ss', None) /\
    rows <$> (buffers ss' !! table) = Some [row] /\
    ex ss' = ex ss.
Proof.
  intros Hop Hnone Hrow.
  destruct (captureRow_Some cap row Hrow) as (_ & Hr).
  unfold addToBuffer. simpl GetTableName. simpl GetCapture.
  rewrite Hnone, Hop, Hrow.
  change (getdbop newPostgressDbOper INSERT_CAPTURE_TABLE)
    with (Ok "INSERT INTO %s (update_id, timestamp, collector_ip, peer_ip, as_path, next_hop, origin_as, update_withdraw, protomsg)").
  cbn [bind]. unfold BufAdd, NewInsertBuffer. cbn [stored arity rows max].
  assert (Hlen : length row = 9) by (rewrite Hr; reflexivity).
  rewrite Hlen. simpl.
  eexists. split; [reflexivity|]. simpl. split; [|reflexivity].
  now rewrite lookup_insert_eq.
Qed.

(** C8. The row that a write stream hands to the insert buffer for an
    accepted capture has nine values; its origin-AS value is the last
    element of the AS-path, or 0 for an empty path; its next-hop value
    prints as 0.0.0.0 when the next hop did not parse; and this row is
    what [addToBuffer] passes to the buffer's [Add]. *)
Theorem addToBuffer_row_origin_and_next_hop :
  forall (cap : WriteRequest) (row : list value),
    captureRow cap = Some row ->
    length row = 9 /\
    row !! 5 = Some (VInt (default 0%Z (last (GetAsPath cap)))) /\
    (GetAsPath cap = [] -> row !! 5 = Some (VInt 0)) /\
    (is_Some (snd (GetNextHop cap)) -> row !! 4 = Some (VStr "0.0.0.0")) /\
    (snd (GetNextHop cap) = None ->
       row !! 4 = Some (VStr (IP_String (fst (GetNextHop cap))))) /\
    (forall ss table buf,
       buffers ss !! table = Some buf ->
       addToBuffer ss (NewCaptureMessage table cap) =
         let '(buf', ex', err) := BufAdd buf (ex ss) row in
         Ok (mkSessionStream (closed ss) (soper ss) ex'
               (<[table := buf']> (buffers ss)), err)) /\
    (forall ss table,
       soper ss = newPostgressDbOper -> buffers ss !! table = None ->
       exists ss',
         addToBuffer ss (NewCaptureMessage table cap) = Ok (ss', None) /\
         rows <$> (buffers ss' !! table) = Some [row] /\
         ex ss' = ex ss).
Proof.
  intros cap row Hrow.
  destruct (captureRow_Some cap row Hrow) as (Hpeer & Hr).
  split; [now rewrite Hr|].
  split; [now rewrite Hr|].
  split; [intros Hp; rewrite Hr, Hp; reflexivity|].
  split.
  { intros [e He]. rewrite Hr.
    destruct (GetNextHop cap) as [ip [e'|]]; [reflexivity|discriminate]. }
  split.
  { intros Hn. rewrite Hr.
    destruct (GetNextHop cap) as [ip [e'|]]; [discriminate|reflexivity]. }
  split.
  - intros ss table buf Hbuf. unfold addToBuffer.
    simpl GetTableName. simpl GetCapture. now rewrite Hbuf, Hrow.
  - intros ss table Hop Hnone. now apply addToBuffer_fresh.
Qed.

Lemma addToBuffer_row_origin_and_next_hop_witness :
  captureRow request0 = Some row0 /\ captureRow request1 = Some row1 /\
  row0 !! 5 = Some (VInt 64500) /\
  row0 !! 4 = Some (VStr "0.0.0.0") /\
  row1 !! 5 = Some (VInt 0) /\
  row1 !! 4 = Some (VStr "203.0.113.9") /\
  exists ss',
    addToBuffer stream0 message0 = Ok (ss', None) /\
    rows <$> (buffers ss' !! "192.0.2.1_1356998400") = Some [row0] /\
    ex ss' = ex stream0.
Proof.
  pose proof (addToBuffer_row_origin_and_next_hop request0 row0 eq_refl)
    as (_ & H05 & _ & H04 & _ & _ & Hfresh).
  pose proof (addToBuffer_row_origin_and_next_hop request1 row1 eq_refl)
    as (_ & _ & H15 & _ & H14 & _ & _).
  split; [reflexivity|]. split; [reflexivity|].
  split; [exact H05|].
  split; [exact (H04 (ex_intro _ _ eq_refl))|].
  split; [exact (H15 eq_refl)|].
  split; [exact (H14 eq_refl)|].
  exact (Hfresh stream0 "192.0.2.1_1356998400" eq_refl eq_refl).
Defined.



End StreamFacts.

(* ===================================================================== *)
(** * What leaves the transaction's state alone                           *)
(* ===================================================================== *)

Module TxFacts.
Import Go sql Executor Util Stream.

Lemma txShape_state e e' : txShape e' = txShape e -> txStateOf e' = txStateOf e.
Proof. now intros [= _ ->]. Qed.

Lemma Tx_Exec_state t q : txState_ (fst (Tx_Exec t q)) = txState_ t.
Proof. unfold Tx_Exec. destruct (txState_ t) eqn:E; simpl; now rewrite ?E. Qed.

Lemma exExec_shape e q : txShape (fst (exExec e q)) = txShape e.
Proof.
  unfold exExec, txShape, txStateOf, Exec.
  destruct (doTx (cex e)) eqn:Hd, (tx (cex e)) as [t|] eqn:Ht; simpl;
    try (destruct (DB_Exec (db (cex e)) q); simpl; now rewrite ?Hd, ?Ht).
  pose proof (Tx_Exec_state t q) as H.
  destruct (Tx_Exec t q) as [t' err]. simpl in *. now rewrite ?Hd, H.
Qed.

Lemma issueEach_shape stmt rs : forall e,
  txShape (fst (issueEach stmt rs e)) = txShape e.
Proof.
  induction rs as [|r rest IH]; intros e; simpl; [reflexivity|].
  pose proof (exExec_shape e (mkStatement stmt r)) as H.
  destruct (exExec e (mkStatement stmt r)) as [e' [err|]]; simpl in *.
  - exact H.
  - now rewrite IH.
Qed.

Lemma issue_shape b rs e : txShape (fst (issue b rs e)) = txShape e.
Proof.
  unfold issue. destruct (wrap b).
  - apply exExec_shape.
  - apply issueEach_shape.
Qed.

Lemma BufAdd_shape b e vals :
  txShape (snd (fst (BufAdd b e vals))) = txShape e.
Proof.
  unfold BufAdd. destruct (stored b); [reflexivity|].
  destruct (negb _); [reflexivity|].
  destruct (_ <=? _)%nat; [|reflexivity].
  pose proof (issue_shape b (rows b ++ [vals]) e) as H.
  now destruct (issue b (rows b ++ [vals]) e).
Qed.

Lemma BufFlush_shape b e :
  txShape (snd (fst (BufFlush b e))) = txShape e /\
  rows (fst (fst (BufFlush b e))) = [].
Proof.
  unfold BufFlush. destruct (rows b) as [|r rs] eqn:Hr; [now split|].
  pose proof (issue_shape b (r :: rs) e) as H.
  now destruct (issue b (r :: rs) e).
Qed.

Lemma addToBuffer_keeps ss msg ss' err :
  addToBuffer ss msg = Ok (ss', err) ->
  txShape (ex ss') = txShape (ex ss) /\ closed ss' = closed ss.
Proof.
  unfold addToBuffer.
  destruct (buffers ss !! GetTableName msg) as [buf|]; cbn [bind].
  - destruct (captureRow (GetCapture msg)) as [row|].
    + pose proof (BufAdd_shape buf (ex ss) row) as H.
      destruct (BufAdd buf (ex ss) row) as [[buf' ex'] r].
      intros [= <- <-]. now split.
    + intros [= <- <-]. now split.
  - destruct (getdbop (soper ss) INSERT_CAPTURE_TABLE) as [tmpl|m];
      cbn [bind]; [|discriminate].
    destruct (captureRow (GetCapture msg)) as [row|].
    + pose proof (BufAdd_shape
                    (NewInsertBuffer (Sprintf tmpl [GetTableName msg])
                       BUFFER_SIZE 9 true) (ex ss) row) as H.
      destruct (BufAdd _ (ex ss) row) as [[buf' ex'] r].
      intros [= <- <-]. now split.
    + intros [= <- <-]. now split.
Qed.

(** The loop of [Flush], from any point on: the executor keeps its shape,
    and every buffer of the resulting map is empty unless the loop had it
    neither in front of it nor behind it. *)
Lemma flushLoop_spec (l : list (string * InsertBuffer)) :
  forall (m : gmap string InsertBuffer) e rets m' e' rets',
    foldl (fun '(m, e, rets) '(key, buf) =>
             let '(buf', e', ret) := BufFlush buf e in
             (<[key := buf']> m, e', rets ++ [ret]))
          (m, e, rets) l = (m', e', rets') ->
    txShape e' = txShape e /\
    forall k b', m' !! k = Some b' ->
      rows b' = [] \/ (m !! k = Some b' /\ ~ In k (map fst l)).
Proof.
  induction l as [|[k0 b0] l IH]; intros m e rets m' e' rets'; simpl.
  - intros [= <- <- <-]. split; [reflexivity|]. intros k b' Hk. right. tauto.
  - destruct (BufFlush_shape b0 e) as (Hs & Hr).
    destruct (BufFlush b0 e) as [[b0' e1] ret]. simpl in Hs, Hr.
    intros Hf. destruct (IH _ _ _ _ _ _ Hf) as (Hs' & Hm).
    split; [congruence|].
    intros k b' Hk. destruct (Hm k b' Hk) as [He|(Hl & Hn)]; [now left|].
    destruct (decide (k0 = k)) as [->|Hne].
    + rewrite lookup_insert_eq in Hl. left. congruence.
    + rewrite lookup_insert_ne in Hl by assumption. right. split; [exact Hl|].
      intros [?|?]; congruence.
Qed.

Lemma flushBuffers_spec (bufs : gmap string InsertBuffer) e bufs' e' rets :
  flushBuffers bufs e = (bufs', e', rets) ->
  txShape e' = txShape e /\
  forall k b', bufs' !! k = Some b' -> rows b' = [].
Proof.
  unfold flushBuffers. intros Hf.
  destruct (flushLoop_spec _ _ _ _ _ _ _ Hf) as (Hs & Hm).
  split; [exact Hs|]. intros k b' Hk.
  destruct (Hm k b' Hk) as [He|(Hl & Hn)]; [exact He|].
  exfalso. apply Hn. apply in_map_iff. exists (k, b'). split; [reflexivity|].
  apply list_elem_of_In. now apply elem_of_map_to_list.
Qed.

Lemma Flush_keeps_closed ss : closed (fst (Flush ss)) = closed ss.
Proof.
  unfold Flush. destruct (flushBuffers _ _) as [[bufs' ex'] rets].
  now destruct (exDone ex').
Qed.

(** On a stream whose transaction is open, [Flush] leaves every buffer
    empty and the transaction committed. *)
Lemma Flush_commits ss :
  txShape (ex ss) = (true, Some TxOpen) ->
  txStateOf (ex (fst (Flush ss))) = Some TxCommitted /\
  forall k b, buffers (fst (Flush ss)) !! k = Some b -> rows b = [].
Proof.
  intros Hs. unfold Flush.
  destruct (flushBuffers (buffers ss) (ex ss)) as [[bufs' ex'] rets] eqn:Hf.
  destruct (flushBuffers_spec _ _ _ _ _ Hf) as (Hs' & Hrows).
  rewrite Hs in Hs'. unfold txShape, txStateOf in Hs'.
  unfold exDone, Done.
  destruct (doTx (cex ex')), (tx (cex ex')) as [t|]; try discriminate.
  simpl in Hs'. injection Hs' as Ht. unfold Tx_Commit. rewrite Ht. simpl.
  split; [reflexivity|exact Hrows].
Qed.

End TxFacts.

(* ===================================================================== *)
(** * Properties of the running write stream                              *)
(* ===================================================================== *)

Module RuntimeFacts.
Import Go sql Executor Util Stream Session Runtime Scenario TxFacts.

Section Safety.
Variable getTable : string -> Z -> string + error.

#[local] Abbreviation next := (next getTable).
#[local] Abbreviation step := (step getTable).
#[local] Abbreviation reachable := (reachable getTable).

Ltac one_of H :=
  repeat match type of H with
         | In _ (_ ++ _) => apply in_app_or in H; destruct H as [H|H]
         | In _ (if ?b then _ else _) => destruct b eqn:?
         | In _ [] => destruct H
         | In _ [_] => destruct H as [H|[]]
         end.

Ltac fin :=
  simpl; auto; try discriminate;
  try solve [intuition (try congruence; eauto)].

(** The pairing of the owner's receive with the listener's reply, when
    the equations for both program points are at hand. *)
Ltac pairing P1 :=
  split;
  [ let Hw := fresh in
    intros Hw; try (apply P1 in Hw); destruct Hw as [? Hw];
    try congruence; eauto
  | let Hr := fresh in
    intros Hr; try (apply P1 in Hr); destruct Hr as [? Hr];
    try congruence; eauto ].

Lemma crash_Inv s msg : Inv s -> Inv (crash s msg).
Proof. intros [P1 P2 P3 P4 P5 P6]. now constructor. Qed.

Lemma fwdSteps_Inv s s' : Inv s -> In s' (fwdSteps s) -> Inv s'.
Proof.
  intros [P1 P2 P3 P4 P5 P6] H. unfold fwdSteps in H.
  destruct (fwd s) eqn:Hf; one_of H; subst s'; constructor; fin.
Qed.

Lemma takeCancel_Inv s normal f :
  Inv s -> lis s = LisSelect ->
  (normal = false -> cancelClosed (sess s) = true) ->
  (f = FwdSend false -> cancelClosed (sess s) = true) ->
  Inv (takeCancel s normal f true).
Proof.
  intros [P1 P2 P3 P4 P5 P6] Hl Hn Hf. unfold takeCancel.
  destruct normal; constructor; fin; try solve [pairing P1].
Qed.

Lemma takeRequest_Inv s wr msg :
  Inv s -> lis s = LisSelect -> owner s = SendReq wr msg ->
  Inv (takeRequest s wr msg).
Proof.
  intros [P1 P2 P3 P4 P5 P6] Hl Ho. unfold takeRequest.
  destruct (addToBuffer (stream s) msg) as [[ss' err]|m] eqn:Ha.
  - destruct (addToBuffer_keeps _ _ _ _ Ha) as (Htx & Hcl).
    constructor; fin. rewrite (txShape_state _ _ Htx). exact P6.
  - constructor; fin.
Qed.

Lemma lisSteps_Inv s s' : Inv s -> In s' (lisSteps s) -> Inv s'.
Proof.
  intros HI H. unfold lisSteps in H.
  destruct (lis s) eqn:Hl; try (now destruct H).
  one_of H.
  - destruct (fwd s) as [|normal|] eqn:Hf; one_of H. subst s'.
    apply takeCancel_Inv; auto; try discriminate.
    intros ->. now apply (inv_fwd_abrupt s HI).
  - subst s'. destruct (inv_daemon s HI Heqb); congruence.
  - destruct (owner s) as [|wr msg|wr|] eqn:Ho; one_of H. subst s'.
    now apply takeRequest_Inv.
  - now subst s'.
Qed.

Lemma ret_Inv s o err lis' rc ss' rest :
  Inv s ->
  ((exists r, lis' = LisReply r) -> False) ->
  (lis' = lis s \/
   (exists r, lis s = LisReply r) /\ lis' = LisSelect \/
   lis s = LisReplyClosed /\ lis' = LisExit /\ rc = true) ->
  (rc = respClosed s \/ rc = true) ->
  closed ss' = closed (stream s) ->
  (txStateOf (ex ss') = txStateOf (ex (stream s)) \/ o = OpFlush) ->
  Inv (ret s o err lis' rc ss' rest).
Proof.
  intros [P1 P2 P3 P4 P5 P6] Hnr Hl Hrc Hcl Htx. unfold ret.
  constructor; simpl.
  - split; [intros [? ?]; discriminate|intros Hr; now destruct (Hnr Hr)].
  - exact P2.
  - intros Hd. specialize (P3 Hd).
    destruct Hl as [->|[([r Hr] & ->)|(Hc & -> & _)]]; auto.
    destruct P3; congruence.
  - intros ->. destruct Hl as [Hl|[(_ & Hl)|(_ & Hl & _)]]; try discriminate.
    rewrite Hcl. now apply P4.
  - intros ->. rewrite Hcl.
    destruct Hl as [Hl|[(_ & Hl)|(Hc & _ & ->)]]; try discriminate.
    + destruct (P5 (eq_sym Hl)) as (? & Hr).
      split; auto. destruct Hrc as [->| ->]; auto.
    + split; auto. now apply P4.
  - rewrite map_app, in_app_iff. simpl.
    destruct Htx as [-> | ->]; auto.
Qed.

Lemma ownerSteps_Inv s s' : Inv s -> In s' (ownerSteps getTable s) -> Inv s'.
Proof.
  intros HI H. pose proof HI as [P1 P2 P3 P4 P5 P6].
  unfold ownerSteps in H.
  destruct (owner s) as [|wr msg|wr|] eqn:Ho.
  - assert (Hnr : (exists r, lis s = LisReply r) -> False).
    { intros Hr. apply P1 in Hr. destruct Hr; congruence. }
    destruct (todo s) as [|o rest] eqn:Ht; [destruct H|].
    destruct o as [wr| | |].
    + destruct (sendPrologue getTable wr) as [msg|err]; one_of H; subst s'.
      * constructor; fin; try solve [pairing P1].
      * apply ret_Inv; auto.
    + one_of H. subst s'. apply ret_Inv; auto.
      apply Flush_keeps_closed.
    + one_of H. subst s'. apply ret_Inv; auto.
    + one_of H; subst s'; constructor; fin; try solve [pairing P1].
  - one_of H. subst s'. now apply crash_Inv.
  - assert (Hr : exists r, lis s = LisReply r) by (apply P1; eauto).
    destruct Hr as [r Hr]. rewrite Hr in H. one_of H. subst s'.
    apply ret_Inv; auto.
    + intros [? ?]; discriminate.
    + right; left. eauto.
  - one_of H; subst s'; [now apply crash_Inv|].
    constructor; fin; try solve [pairing P1].
    intros Hc. rewrite map_app, in_app_iff. auto.
Qed.

Lemma closerSteps_Inv s s' : Inv s -> In s' (closerSteps s) -> Inv s'.
Proof.
  intros [P1 P2 P3 P4 P5 P6] H. unfold closerSteps in H.
  destruct (closer s) eqn:Hc; [| |destruct H].
  - one_of H; subst s'; constructor; fin.
  - unfold drainAndStop in H.
    destruct (wpClose (wp (sess s))); one_of H. subst s'.
    constructor; fin.
Qed.

Lemma step_Inv s s' : Inv s -> step s s' -> Inv s'.
Proof.
  intros HI H. unfold Runtime.step, Runtime.next in H.
  destruct (crashed s); [destruct H|].
  one_of H; eauto using fwdSteps_Inv, lisSteps_Inv, ownerSteps_Inv,
    closerSteps_Inv.
Qed.

Lemma openStream_Inv se prog s0 : openStream se prog = Some s0 -> Inv s0.
Proof.
  unfold openStream, GetNewExecutor, DB_BeginTx.
  destruct (wpAdd (wp se)); [|discriminate].
  destruct (dbOpen (Session.db se)); [|discriminate].
  intros [= <-]. constructor; fin.
  split; intros [? ?]; discriminate.
Qed.

Lemma reachable_Inv s0 s : Inv s0 -> reachable s0 s -> Inv s.
Proof.
  intros H0 Hr. induction Hr; eauto using step_Inv.
Qed.

Lemma follow_reachable sched : forall s s',
  follow getTable sched s = Some s' -> reachable s s'.
Proof.
  induction sched as [|i rest IH]; intros s s'; simpl.
  - intros [= <-]. apply rtc_refl.
  - destruct (nth_error (next s) i) as [s1|] eqn:Hn; [|discriminate].
    intros Hf. apply rtc_l with s1; [|now apply IH].
    unfold Runtime.step. now apply nth_error_In with i.
Qed.

Ltac kept :=
  subst; simpl; split;
  [ assumption
  | intros ? ? ?; split; first [assumption | reflexivity | congruence] ].

(** While [listen] offers its "Channel closed" reply, no step of the
    system lets it hand the reply over, and an owner blocked in [Send]
    stays blocked. *)
Lemma offer_step s s' :
  Inv s -> lis s = LisReplyClosed -> step s s' ->
  lis s' = LisReplyClosed /\
  (forall wr msg, owner s = SendReq wr msg ->
     owner s' = SendReq wr msg /\ returned s' = returned s).
Proof.
  intros HI Hl H. unfold Runtime.step, Runtime.next in H.
  destruct (crashed s); [destruct H|].
  one_of H.
  - unfold fwdSteps in H. destruct (fwd s); one_of H; kept.
  - unfold lisSteps in H. rewrite Hl in H. destruct H.
  - unfold ownerSteps in H.
    destruct (owner s) as [|wr msg|wr|] eqn:Ho.
    + destruct (todo s) as [|o rest]; [destruct H|].
      destruct o as [wr| | |];
        try destruct (sendPrologue getTable wr);
        one_of H; kept.
    + one_of H. kept.
    + exfalso. destruct (proj1 (inv_pair s HI)) as [r Hr]; eauto.
      congruence.
    + one_of H; kept.
  - unfold closerSteps, drainAndStop in H.
    destruct (closer s); [| |destruct H].
    + one_of H; kept.
    + destruct (wpClose (wp (sess s))); one_of H. kept.
Qed.

Lemma offer_is_never_taken s s' :
  Inv s -> lis s = LisReplyClosed -> reachable s s' ->
  lis s' = LisReplyClosed /\
  (forall wr msg, owner s = SendReq wr msg ->
     owner s' = SendReq wr msg /\ returned s' = returned s).
Proof.
  intros HI Hl Hr. induction Hr as [s|s s1 s2 Hs Hr IH].
  - split; auto.
  - destruct (offer_step s s1 HI Hl Hs) as (Hl1 & Ho1).
    destruct (IH (step_Inv _ _ HI Hs) Hl1) as (Hl2 & Ho2).
    split; auto. intros wr msg Ho.
    destruct (Ho1 wr msg Ho) as (Ho' & Hret).
    destruct (Ho2 wr msg Ho') as (Ho'' & Hret').
    split; congruence.
Qed.

Lemma takeCancel_step s normal :
  crashed s = None -> lis s = LisSelect -> fwd s = FwdSend normal ->
  step s (takeCancel s normal FwdExit true).
Proof.
  intros Hc Hl Hf. unfold Runtime.step, Runtime.next. rewrite Hc.
  apply in_or_app. right. apply in_or_app. left.
  unfold lisSteps. rewrite Hl, Hf. now left.
Qed.

Lemma takeCancel_effect s normal f d :
  closed (stream (takeCancel s normal f d)) = true /\
  lis (takeCancel s normal f d) = (if normal then LisExit else LisReplyClosed) /\
  ex (stream (takeCancel s normal f d)) = ex (stream s) /\
  buffers (stream (takeCancel s normal f d)) = buffers (stream s) /\
  returned (takeCancel s normal f d) = returned s.
Proof. unfold takeCancel. now destruct normal. Qed.

(** C1 (as amended). In every state that a session with a capture write
    stream can reach: when [listen] takes the signal of a session-initiated
    close it marks the stream closed and goes on to offer a "Channel
    closed" reply, and when it takes the signal of an owner-initiated close
    it marks the stream closed and returns without a reply, in both cases
    leaving executor, buffers and the owner's results as they are; the
    reply is offered only after the session was closed; [listen] has
    returned only with the response channel closed; the transaction is
    committed only if a [Flush] of the owner has returned; and a [Flush] on
    the open transaction empties every buffer and commits. *)
Theorem close_paths_leave_commit_to_Flush :
  forall (se : Session) (prog : list op) (s0 s : system),
    openStream se prog = Some s0 -> reachable s0 s ->
    (forall normal,
       crashed s = None -> lis s = LisSelect -> fwd s = FwdSend normal ->
       step s (takeCancel s normal FwdExit true) /\
       closed (stream (takeCancel s normal FwdExit true)) = true /\
       lis (takeCancel s normal FwdExit true) =
         (if normal then LisExit else LisReplyClosed) /\
       ex (stream (takeCancel s normal FwdExit true)) = ex (stream s) /\
       buffers (stream (takeCancel s normal FwdExit true)) =
         buffers (stream s) /\
       returned (takeCancel s normal FwdExit true) = returned s) /\
    (lis s = LisReplyClosed ->
       cancelClosed (sess s) = true /\ closed (stream s) = true) /\
    (lis s = LisExit -> closed (stream s) = true /\ respClosed s = true) /\
    (txStateOf (ex (stream s)) = Some TxCommitted ->
       In OpFlush (map fst (returned s))) /\
    (txShape (ex (stream s)) = (true, Some TxOpen) ->
       txStateOf (ex (fst (Flush (stream s)))) = Some TxCommitted /\
       forall k b,
         buffers (fst (Flush (stream s))) !! k = Some b -> rows b = []).
Proof.
  intros se prog s0 s Hopen Hreach.
  pose proof (reachable_Inv s0 s (openStream_Inv se prog s0 Hopen) Hreach)
    as HI.
  split.
  { intros normal Hc Hl Hf. split; [now apply takeCancel_step|].
    apply takeCancel_effect. }
  split; [apply (inv_offer s HI)|].
  split; [apply (inv_exit s HI)|].
  split; [apply (inv_commit s HI)|].
  apply Flush_commits.
Qed.

End Safety.

Lemma started_is_openStream prog :
  openStream session0 prog = Some (started prog).
Proof. reflexivity. Qed.

Lemma close_paths_leave_commit_to_Flush_witness :
  openStream session0 [OpWrite request0] = Some (started [OpWrite request0]) /\
  reachable table0 (started [OpWrite request0]) abruptSignal /\
  step table0 abruptSignal (takeCancel abruptSignal false FwdExit true) /\
  closed (stream (takeCancel abruptSignal false FwdExit true)) = true /\
  lis (takeCancel abruptSignal false FwdExit true) = LisReplyClosed /\
  ex (stream (takeCancel abruptSignal false FwdExit true)) =
    ex (stream abruptSignal) /\
  buffers (stream (takeCancel abruptSignal false FwdExit true)) =
    buffers (stream abruptSignal) /\
  returned (takeCancel abruptSignal false FwdExit true) =
    returned abruptSignal.
Proof.
  assert (Hr : reachable table0 (started [OpWrite request0]) abruptSignal).
  { apply follow_reachable with [0; 1; 0]. vm_compute. reflexivity. }
  split; [reflexivity|]. split; [exact Hr|].
  apply (close_paths_leave_commit_to_Flush table0 session0
           [OpWrite request0] (started [OpWrite request0]) abruptSignal
           eq_refl Hr).
  - vm_compute. reflexivity.
  - vm_compute. reflexivity.
  - vm_compute. reflexivity.
Defined.

(** C1, the claim as stated fails, in both halves.  Owner-initiated
    close: the owner writes a capture and closes its stream, then the
    session is closed; every goroutine has finished, both calls returned
    nil, the row is still in its buffer and the transaction is still open:
    nothing was committed.  Session-initiated close: the session is closed
    while the owner's write is at its channel send; [listen] offers
    "Channel closed" on the response channel, the owner is still at its
    send, nothing has returned, and the system has no further step: the
    write blocks forever. *)
Lemma close_paths_counterexample :
  (openStream session0 [OpWrite request0; OpClose]
     = Some (started [OpWrite request0; OpClose]) /\
   follow table0 [0; 0; 0; 0; 0; 0; 0; 0; 0]
     (started [OpWrite request0; OpClose]) = Some ownerClosed /\
   returned ownerClosed = [(OpWrite request0, None); (OpClose, None)] /\
   todo ownerClosed = [] /\
   lis ownerClosed = LisExit /\ fwd ownerClosed = FwdExit /\
   closer ownerClosed = CloseReturned /\
   next table0 ownerClosed = [] /\
   rows <$> (buffers (stream ownerClosed) !! "192.0.2.1_1356998400")
     = Some [row0] /\
   txStateOf (ex (stream ownerClosed)) = Some TxOpen) /\
  (openStream session0 [OpWrite request0]
     = Some (started [OpWrite request0]) /\
   follow table0 [0; 1; 0; 0] (started [OpWrite request0])
     = Some abruptClosed /\
   cancelClosed (sess abruptClosed) = true /\
   owner abruptClosed = SendReq request0 message0 /\
   lis abruptClosed = LisReplyClosed /\
   returned abruptClosed = [] /\
   next table0 abruptClosed = [] /\
   txStateOf (ex (stream abruptClosed)) = Some TxOpen).
Proof. split; repeat split; vm_compute; reflexivity. Qed.

(** In every run, once [listen] offers its "Channel closed" reply, the
    reply is never taken: [listen] stays at its send, and an owner that
    is inside [Send] stays there without a result. *)
Lemma abrupt_close_blocks_pending_write :
  forall getTable se prog s0 s s' wr msg,
    openStream se prog = Some s0 ->
    reachable getTable s0 s -> lis s = LisReplyClosed ->
    owner s = SendReq wr msg ->
    reachable getTable s s' ->
    lis s' = LisReplyClosed /\ owner s' = SendReq wr msg /\
    returned s' = returned s.
Proof.
  intros getTable se prog s0 s s' wr msg Hopen Hr Hl Ho Hr'.
  pose proof (reachable_Inv getTable s0 s
                (openStream_Inv se prog s0 Hopen) Hr) as HI.
  destruct (offer_is_never_taken getTable s s' HI Hl Hr') as (Hl' & Ho').
  destruct (Ho' wr msg Ho). now repeat split.
Qed.

End RuntimeFacts.

(* ===================================================================== *)
(** * More properties of the periodic daemon                              *)
(* ===================================================================== *)

Module PeriodicMore.
Import Periodic PeriodicFacts Derived ScenarioMore.

#[local] Arguments Nat.leb : simpl never.

Section Loop.
Variables (modval : string) (argmap : optMap).

#[local] Abbreviation callOf := (callOf modval argmap).

Lemma loop_calls evs : forall r e log,
  exists n,
    calls (loop modval argmap evs r e log) = log ++ map callOf (seq r n) /\
    n <= length evs.
Proof.
  induction evs as [|ev rest IH]; intros r e log; simpl.
  - exists 0. simpl. rewrite app_nil_r. split; [reflexivity|lia].
  - destruct ev as [|res].
    + exists 0. simpl. rewrite app_nil_r. split; [reflexivity|lia].
    + destruct (5 <=? _)%nat.
      * exists 1. simpl. split; [reflexivity|lia].
      * destruct (IH (S r) (match res with Some _ => S e | None => 0 end)
                    (log ++ [callOf r])) as (n & Hn & Hle).
        exists (S n). fold (callOf r). rewrite Hn, <- app_assoc. simpl.
        split; [reflexivity|lia].
Qed.

Lemma callOf_inj k1 k2 : mID (callOf k1) = mID (callOf k2) -> k1 = k2.
Proof.
  unfold callOf. simpl. intros H.
  apply (inj (String.app "periodic-")) in H.
  apply (inj (String.app modval)) in H.
  now apply (inj pretty) in H.
Qed.

Lemma loop_bounds evs : forall r e log,
  e < 5 ->
  finishes (loop modval argmap evs r e log) <= 1 /\
  errC (loop modval argmap evs r e log) <= 5 /\
  (finishes (loop modval argmap evs r e log) = 1 <->
   state (loop modval argmap evs r e log) = SelfTerminated).
Proof.
  induction evs as [|ev rest IH]; intros r e log He; simpl.
  - repeat split; try lia; discriminate.
  - destruct ev as [|res].
    + simpl. repeat split; try lia; discriminate.
    + destruct (Nat.leb_spec 5 (match res with Some _ => S e | None => 0 end))
        as [Hge|Hlt].
      * simpl. destruct res; repeat split; auto; lia.
      * apply IH. destruct res; lia.
Qed.

Lemma loop_cancel ticks rest : forall r e log,
  state (loop modval argmap ticks r e log) = Waiting ->
  loop modval argmap (ticks ++ Cancel :: rest) r e log =
  mkOutcome Stopped (calls (loop modval argmap ticks r e log)) 0
    (runC (loop modval argmap ticks r e log))
    (errC (loop modval argmap ticks r e log)).
Proof.
  intros r e log Hw. now rewrite loop_app.
Qed.
End Loop.

Section Daemon.
Variable CheckForKeys : optMap -> list string -> bool.
Variable ParseDuration : string -> option Z.
Variable StringToOptMap : string -> option optMap.

#[local] Abbreviation Run := (Run CheckForKeys ParseDuration StringToOptMap).
#[local] Abbreviation validOptions :=
  (validOptions CheckForKeys ParseDuration StringToOptMap).

Lemma Run_cases args :
  (forall evs, Run args evs = mkOutcome SelfTerminated [] 1 0 0) \/
  (exists argmap,
     StringToOptMap (get args "args") = Some argmap /\
     validOptions args /\
     forall evs, Run args evs = loop (get args "module") argmap evs 0 0 []).
Proof.
  unfold Periodic.Run, Periodic.validOptions.
  destruct (CheckForKeys args _) eqn:Hk; simpl; [|now left].
  destruct (ParseDuration _) as [d|] eqn:Hd; [|now left].
  destruct (StringToOptMap _) as [m|] eqn:Hm; [|now left].
  right. exists m. repeat split; eauto.
Qed.

(** X1. With options that fail one of the three checks (a key is missing,
    the duration does not parse, or the argument string does not parse)
    the daemon calls its finish function once and returns without ever
    invoking the target, whatever events arrive. *)
Theorem Run_rejects_bad_options :
  forall (args : optMap) (evs : list event),
    ~ validOptions args ->
    Run args evs = mkOutcome SelfTerminated [] 1 0 0.
Proof.
  intros args evs Hbad.
  destruct (Run_cases args) as [H|(m & _ & Hv & _)]; [apply H|contradiction].
Qed.

(** X2. With valid options, a cancel signal that arrives while the daemon is
    waiting makes it return without calling its finish function; it has
    invoked the target once for each tick before the signal, and events
    after the signal are ignored. *)
Theorem Run_stops_on_cancel :
  forall (args : optMap) (ticks rest : list event),
    validOptions args ->
    state (Run args ticks) = Waiting ->
    state (Run args (ticks ++ Cancel :: rest)) = Stopped /\
    finishes (Run args (ticks ++ Cancel :: rest)) = 0 /\
    calls (Run args (ticks ++ Cancel :: rest)) = calls (Run args ticks) /\
    length (calls (Run args (ticks ++ Cancel :: rest))) = length ticks.
Proof.
  intros args ticks rest Hv Hw.
  destruct (Run_cases args) as [H|(m & _ & _ & HR)].
  - rewrite H in Hw. discriminate.
  - rewrite !HR in *. rewrite loop_cancel by assumption. simpl.
    repeat split.
    now destruct (loop_waiting_inv _ _ ticks _ _ _ _ eq_refl Hw)
      as (_ & Hc & _).
Qed.

(** X3. With valid options the invocations carry the target module, the
    parsed sub-options and the identifiers periodic-<module>0,
    periodic-<module>1, ... in this order; there is at most one invocation
    per event, and no two invocations share an identifier. *)
Theorem Run_invocation_ids :
  forall (args : optMap) (argmap : optMap) (evs : list event),
    validOptions args ->
    StringToOptMap (get args "args") = Some argmap ->
    calls (Run args evs) =
      map (callOf (get args "module") argmap)
          (seq 0 (length (calls (Run args evs)))) /\
    length (calls (Run args evs)) <= length evs /\
    NoDup (map mID (calls (Run args evs))).
Proof.
  intros args argmap evs Hv Hm.
  destruct (Run_cases args) as [H|(m & Hm' & _ & HR)].
  - rewrite H. simpl. repeat split; [lia|constructor].
  - assert (m = argmap) by congruence. subst m. rewrite HR.
    destruct (loop_calls (get args "module") argmap evs 0 0 [])
      as (n & Hn & Hle).
    simpl in Hn. rewrite Hn, length_map, length_seq.
    split; [reflexivity|]. split; [exact Hle|].
    rewrite map_map.
    assert (Hinj : Inj (=) (=)
              (fun k => mID (callOf (get args "module") argmap k))).
    { intros k1 k2. apply callOf_inj. }
    apply (NoDup_fmap_2 _ (seq 0 n) (NoDup_seq 0 n)).
Qed.

(** X4. Whatever the options: the finish function is called at most once,
    and exactly when the daemon terminates itself; the failure counter
    never exceeds five; and once the daemon has returned, further events
    change nothing (no invocation, no second call of the finish
    function). *)
Theorem Run_returns_once :
  forall (args : optMap) (evs more : list event),
    finishes (Run args evs) <= 1 /\
    errC (Run args evs) <= 5 /\
    (finishes (Run args evs) = 1 <-> state (Run args evs) = SelfTerminated) /\
    (state (Run args evs) <> Waiting -> Run args (evs ++ more) = Run args evs).
Proof.
  intros args evs more.
  destruct (Run_cases args) as [H|(m & _ & _ & HR)].
  - rewrite !H. simpl. repeat split; auto; lia.
  - rewrite !HR.
    destruct (loop_bounds (get args "module") m evs 0 0 [] ltac:(lia))
      as (Hf & He & Hiff).
    split; [exact Hf|]. split; [exact He|]. split; [exact Hiff|].
    apply loop_app_returned.
Qed.
End Daemon.

Lemma failingArgs_valid : validOptions allKeys parse10ms noSubArgs failingArgs.
Proof.
  split; [vm_compute; reflexivity|].
  split; eexists; vm_compute; reflexivity.
Qed.

Lemma Run_rejects_bad_options_witness :
  Run allKeys parse10ms noSubArgs missingKeys [boom; Tick None; Cancel] =
    mkOutcome SelfTerminated [] 1 0 0.
Proof.
  apply (Run_rejects_bad_options allKeys parse10ms noSubArgs missingKeys).
  intros [Hk _]. vm_compute in Hk. discriminate.
Defined.

Lemma Run_stops_on_cancel_witness :
  state (Run allKeys parse10ms noSubArgs failingArgs
           ([Tick None; boom] ++ Cancel :: [boom])) = Stopped /\
  finishes (Run allKeys parse10ms noSubArgs failingArgs
              ([Tick None; boom] ++ Cancel :: [boom])) = 0 /\
  calls (Run allKeys parse10ms noSubArgs failingArgs
           ([Tick None; boom] ++ Cancel :: [boom])) =
    calls (Run allKeys parse10ms noSubArgs failingArgs [Tick None; boom]) /\
  length (calls (Run allKeys parse10ms noSubArgs failingArgs
                   ([Tick None; boom] ++ Cancel :: [boom]))) =
    length [Tick None; boom].
Proof.
  apply (Run_stops_on_cancel allKeys parse10ms noSubArgs failingArgs
           [Tick None; boom] [boom] failingArgs_valid).
  vm_compute. reflexivity.
Defined.

Lemma Run_invocation_ids_witness :
  calls (Run allKeys parse10ms noSubArgs failingArgs [boom; Tick None; Cancel])
    = map (callOf "alwaysfails" ∅) [0; 1] /\
  NoDup (map mID (calls (Run allKeys parse10ms noSubArgs failingArgs
                           [boom; Tick None; Cancel]))).
Proof.
  destruct (Run_invocation_ids allKeys parse10ms noSubArgs failingArgs ∅
              [boom; Tick None; Cancel] failingArgs_valid eq_refl)
    as (Hc & _ & Hn).
  split; [exact Hc|exact Hn].
Defined.

End PeriodicMore.

(* ===================================================================== *)
(** * More properties of the hijack task                                  *)
(* ===================================================================== *)

Module HijackMore.
Import Hijack HijackFacts HijackRun ScenarioMore.

Lemma scan_counts ent caps :
  scan ent caps = (length caps, length (List.filter (isEvent ent) caps)).
Proof. unfold scan. now rewrite scanFrom_counts. Qed.

Lemma filter_length_le {A} (f g : A -> bool) (l : list A) :
  (forall x, f x = true -> g x = true) ->
  length (List.filter f l) <= length (List.filter g l).
Proof.
  intros Hfg. induction l as [|x l IH]; simpl; [lia|].
  destruct (f x) eqn:Hf.
  - rewrite (Hfg x Hf). simpl. lia.
  - destruct (g x); simpl; lia.
Qed.

(** X5. Owning more origins never adds events: when every origin of one
    entity is also owned by a second entity, and a second capture's path
    visits every AS of the first capture's path, an event for the second
    pair is an event for the first; so the answer depends only on which
    ASes are owned and which are on the path, not on their order or
    repetition (AS-path prepending changes nothing), and a scan for the
    entity that owns more counts no more events. *)
Theorem isEvent_antitone :
  forall (ent1 ent2 : Entity) (cap1 cap2 : Capture) (caps : list Capture),
    (forall a, In a (OwnedOrigins ent1) -> In a (OwnedOrigins ent2)) ->
    (forall a, In a (ASPath cap1) -> In a (ASPath cap2)) ->
    (isEvent ent2 cap2 = true -> isEvent ent1 cap1 = true) /\
    snd (scan ent2 caps) <= snd (scan ent1 caps).
Proof.
  intros ent1 ent2 cap1 cap2 caps Ho Hp.
  assert (Hmono : forall c, isEvent ent2 c = true -> isEvent ent1 c = true).
  { intros c H. apply isEventFrom_spec. intros a Ha Hin.
    apply (proj1 (isEventFrom_spec _ _) H a Ha). now apply Ho. }
  split.
  - intros H. apply isEventFrom_spec. intros a Ha Hin.
    apply (proj1 (isEventFrom_spec _ _) H a (Hp a Ha)). now apply Ho.
  - rewrite !scan_counts. simpl. now apply filter_length_le.
Qed.

Lemma filter_all {A} (f : A -> bool) (l : list A) :
  (forall x, f x = true) -> List.filter f l = l.
Proof.
  intros Hf. induction l as [|x l IH]; simpl; [reflexivity|].
  now rewrite Hf, IH.
Qed.

(** X6. For an entity that owns no origin AS every capture is an event, so a
    scan reports as many events as messages; and a capture with an empty
    AS-path is an event for every entity. *)
Theorem isEvent_without_origins_or_path :
  forall (ent : Entity) (cap : Capture) (caps : list Capture),
    (OwnedOrigins ent = [] ->
       isEvent ent cap = true /\ scan ent caps = (length caps, length caps)) /\
    (ASPath cap = [] -> isEvent ent cap = true).
Proof.
  intros ent cap caps. split.
  - intros Ho.
    assert (Hall : forall c, isEvent ent c = true).
    { intros c. unfold isEvent. now rewrite Ho. }
    split; [apply Hall|]. now rewrite scan_counts, filter_all.
  - intros Hp. apply isEventFrom_spec. rewrite Hp. intros a [].
Qed.

Section Task.
Variable CheckForKeys : gmap string string -> list string -> bool.
Variable ParseAny : string -> Z + error.
Variable OpenEntityStream : string -> string -> ReadStream Entity + error.
Variable OpenCaptureStream :
  string -> list string -> Z -> Z -> ReadStream Capture + error.

#[local] Abbreviation Run :=
  (Run CheckForKeys ParseAny OpenEntityStream OpenCaptureStream).

(** X7. The task reports counts exactly when the four keys are present, both
    dates parse, the entity stream opens and yields an entity, and the
    capture stream opens and ends without error.  The entity is the first
    one the entity stream yields; the capture stream is opened on the
    given session for the entity's owned prefixes and the parsed dates;
    the message count is the number of captures read and the event count
    the number of them with no owned origin on the path.  An error at the
    end of the capture stream suppresses the counts. *)
Theorem hijack_Run_reports_counts :
  forall (args : gmap string string) (msgCt events : nat),
    Run args = Scanned msgCt events <->
    CheckForKeys args ["entity"; "start"; "end"; "session"] = true /\
    exists start end_ entityStream entity others capStream,
      ParseAny (arg args "start") = inl start /\
      ParseAny (arg args "end") = inl end_ /\
      OpenEntityStream (arg args "session") (arg args "entity")
        = inl entityStream /\
      items entityStream = entity :: others /\
      OpenCaptureStream (arg args "session") (OwnedPrefixes entity)
        start end_ = inl capStream /\
      Err capStream = None /\
      msgCt = length (items capStream) /\
      events = length (List.filter (isEvent entity) (items capStream)).
Proof.
  intros args msgCt events. unfold HijackRun.Run, HijackRun.readEntity.
  split.
  - destruct (CheckForKeys args _); simpl; [|discriminate].
    destruct (ParseAny (arg args "start")) as [start|]; [|discriminate].
    destruct (ParseAny (arg args "end")) as [end_|]; [|discriminate].
    destruct (OpenEntityStream _ _) as [es|]; [|discriminate].
    destruct (items es) as [|entity others] eqn:Hi;
      [destruct (Err es); discriminate|].
    destruct (OpenCaptureStream _ _ _ _) as [cs|] eqn:Hc; [|discriminate].
    rewrite scan_counts. destruct (Err cs) eqn:He; [discriminate|].
    intros [= <- <-]. split; [reflexivity|].
    exists start, end_, es, entity, others, cs. now repeat split.
  - intros (Hk & start & end_ & es & entity & others & cs &
            Hs & He & Ho & Hi & Hc & Herr & -> & ->).
    rewrite Hk, Hs, He, Ho, Hi, Hc, scan_counts, Herr. reflexivity.
Qed.

End Task.

Lemma isEvent_antitone_witness :
  (isEvent entity1 capture1 = true -> isEvent entity0 capture0 = true) /\
  snd (scan entity1 [capture0; capture1]) <=
    snd (scan entity0 [capture0; capture1]).
Proof.
  apply (isEvent_antitone entity0 entity1 capture0 capture1
           [capture0; capture1]).
  - simpl. tauto.
  - simpl. tauto.
Defined.

End HijackMore.

(* ===================================================================== *)
(** * Properties of the file-to-stream test helper                        *)
(* ===================================================================== *)

Module StreamTestFacts.
Import Go Util StreamTest Scenario ScenarioMore.

Section WriteFile.
Variable W : Type.
Variable Write : W -> WriteRequest -> W * option error.
Variable Flush : W -> W * option error.
Variable NewMrtFileReader : string -> list scanned + error.

#[local] Arguments maxWriteCt : simpl never.
#[local] Abbreviation writeLoop := (writeLoop W Write).
#[local] Abbreviation writeAll := (writeAll W Write).
#[local] Abbreviation writeFileToStream :=
  (writeFileToStream W Write Flush NewMrtFileReader).

Lemma writeLoop_bound recs : forall parsed ws,
  parsed <= maxWriteCt ->
  parsed <= snd (fst (writeLoop recs parsed ws)) /\
  snd (fst (writeLoop recs parsed ws)) <= maxWriteCt /\
  snd (fst (writeLoop recs parsed ws)) <= parsed + length (captures recs).
Proof.
  induction recs as [|r rest IH]; intros parsed ws Hp; simpl.
  - lia.
  - destruct (Nat.ltb_spec parsed maxWriteCt) as [Hlt|Hge].
    + destruct r as [e| |wr].
      * destruct (IH parsed ws Hp) as (? & ? & ?). lia.
      * destruct (IH parsed ws Hp) as (? & ? & ?). lia.
      * destruct (Write ws wr) as [ws' [e|]]; simpl; [lia|].
        destruct (IH (S parsed) ws' ltac:(lia)) as (? & ? & ?). lia.
    + destruct r; simpl; lia.
Qed.


(** While every write succeeds, the loop writes the captures in file
    order until the limit is reached. *)
Lemma writeLoop_all_ok recs : forall parsed ws room,
  parsed + room = maxWriteCt ->
  (forall pre wr post,
     firstn room (captures recs) = pre ++ wr :: post ->
     snd (Write (writeAll ws pre) wr) = None) ->
  writeLoop recs parsed ws =
    (writeAll ws (firstn room (captures recs)),
     parsed + length (firstn room (captures recs)),
     None).
Proof.
  induction recs as [|r rest IH]; intros parsed ws room Hp Hok.
  - simpl. rewrite firstn_nil. simpl. now rewrite Nat.add_0_r.
  - cbn [StreamTest.writeLoop].
    destruct (Nat.ltb_spec parsed maxWriteCt) as [Hlt|Hge].
    + destruct r as [e| |wr]; cbn [captures] in *; try (now apply IH).
      destruct room as [|k]; [lia|].
      cbn [firstn] in *.
      pose proof (Hok [] wr _ eq_refl) as H0. cbn in H0.
      destruct (Write ws wr) as [ws' [e|]] eqn:Hw; [discriminate|].
      rewrite (IH (S parsed) ws' k ltac:(lia)).
      * unfold StreamTest.writeAll. cbn [foldl length]. rewrite Hw.
        cbn [fst]. f_equal. f_equal. lia.
      * intros pre wr' post Hpre.
        specialize (Hok (wr :: pre) wr' post).
        unfold StreamTest.writeAll in *. cbn [foldl] in Hok.
        rewrite Hw in Hok. apply Hok. cbn. now rewrite Hpre.
    + assert (room = 0) by lia. subst room. cbn.
      now rewrite Nat.add_0_r.
Qed.

(** The loop stops at the first write that fails. *)
Lemma writeLoop_fails recs : forall parsed ws pre wr post err,
  captures recs = pre ++ wr :: post ->
  parsed + length pre < maxWriteCt ->
  (forall pre1 w pre2,
     pre = pre1 ++ w :: pre2 -> snd (Write (writeAll ws pre1) w) = None) ->
  snd (Write (writeAll ws pre) wr) = Some err ->
  writeLoop recs parsed ws =
    (fst (Write (writeAll ws pre) wr), S (parsed + length pre), Some err).
Proof.
  induction recs as [|r rest IH]; intros parsed ws pre wr post err
    Hcap Hlen Hok Hfail.
  - now destruct pre.
  - cbn [StreamTest.writeLoop].
    destruct (Nat.ltb_spec parsed maxWriteCt) as [Hlt|Hge]; [|lia].
    destruct r as [e| |wr0]; cbn [captures] in Hcap;
      try (now apply IH with post).
    destruct pre as [|w pre]; cbn in Hcap; injection Hcap as -> Hrest.
    + unfold StreamTest.writeAll in *. cbn [foldl length] in *.
      destruct (Write ws wr) as [ws' [e|]]; cbn in *; [|discriminate].
      injection Hfail as ->. now rewrite Nat.add_0_r.
    + pose proof (Hok [] w pre eq_refl) as H0.
      unfold StreamTest.writeAll in *. cbn [foldl length] in *.
      destruct (Write ws w) as [ws' [e|]] eqn:Hw; [discriminate|].
      cbn [fst] in *.
      rewrite (IH (S parsed) ws' pre wr post err Hrest ltac:(lia)).
      * f_equal. f_equal. lia.
      * intros pre1 w' pre2 Hpre.
        specialize (Hok (w :: pre1) w' pre2). cbn [foldl] in Hok.
        rewrite Hw in Hok. apply Hok. now rewrite Hpre.
      * exact Hfail.
Qed.

(** X8. The helper never counts more than [maxWriteCt] captures nor more
    than the file holds: records that fail to parse and records without a
    capture are skipped and not counted; and when the file cannot be
    opened it returns that error with a count of zero and leaves the
    stream alone. *)
Theorem writeFileToStream_count_bounds :
  forall (fName : string) (ws : W),
    snd (fst (writeFileToStream fName ws)) <= maxWriteCt /\
    (forall recs,
       NewMrtFileReader fName = inl recs ->
       snd (fst (writeFileToStream fName ws)) <= length (captures recs)) /\
    (forall err,
       NewMrtFileReader fName = inr err ->
       writeFileToStream fName ws = (ws, 0, Some err)).
Proof.
  intros fName ws. unfold StreamTest.writeFileToStream.
  destruct (NewMrtFileReader fName) as [recs|e].
  - destruct (writeLoop_bound recs 0 ws ltac:(unfold maxWriteCt; lia))
      as (_ & Hmax & Hcap).
    destruct (writeLoop recs 0 ws) as [[ws' parsed] [err|]]; simpl in *.
    + split; [exact Hmax|]. split; [|discriminate].
      intros recs' [= <-]. exact Hcap.
    + destruct (Flush ws') as [ws'' ferr]. simpl.
      split; [exact Hmax|]. split; [|discriminate].
      intros recs' [= <-]. exact Hcap.
  - simpl. split; [lia|]. split; [discriminate|]. now intros err [= <-].
Qed.

(** X9. When the writes of the first [maxWriteCt] captures of the file all
    succeed, the helper has written exactly these captures, in file order,
    then flushed the stream once; it returns their number and what
    [Flush] returned. *)
Theorem writeFileToStream_writes_then_flushes :
  forall (fName : string) (ws : W) (recs : list scanned),
    NewMrtFileReader fName = inl recs ->
    (forall pre wr post,
       firstn maxWriteCt (captures recs) = pre ++ wr :: post ->
       snd (Write (writeAll ws pre) wr) = None) ->
    writeFileToStream fName ws =
      (fst (Flush (writeAll ws (firstn maxWriteCt (captures recs)))),
       Nat.min maxWriteCt (length (captures recs)),
       snd (Flush (writeAll ws (firstn maxWriteCt (captures recs))))).
Proof.
  intros fName ws recs Hr Hok. unfold StreamTest.writeFileToStream.
  rewrite Hr, (writeLoop_all_ok recs 0 ws maxWriteCt eq_refl Hok).
  cbn [Nat.add]. rewrite length_firstn. now destruct (Flush _).
Qed.

(** X10. When a write fails, the helper returns at once with that error: the
    count includes the failed write, no later capture is written, and the
    stream is not flushed. *)
Theorem writeFileToStream_stops_at_failed_write :
  forall (fName : string) (ws : W) (recs : list scanned)
         (pre : list WriteRequest) (wr : WriteRequest)
         (post : list WriteRequest) (err : error),
    NewMrtFileReader fName = inl recs ->
    captures recs = pre ++ wr :: post ->
    length pre < maxWriteCt ->
    (forall pre1 w pre2,
       pre = pre1 ++ w :: pre2 -> snd (Write (writeAll ws pre1) w) = None) ->
    snd (Write (writeAll ws pre) wr) = Some err ->
    writeFileToStream fName ws =
      (fst (Write (writeAll ws pre) wr), S (length pre), Some err).
Proof.
  intros fName ws recs pre wr post err Hr Hcap Hlen Hok Hfail.
  unfold StreamTest.writeFileToStream.
  now rewrite Hr, (writeLoop_fails recs 0 ws pre wr post err Hcap Hlen Hok
                     Hfail).
Qed.
End WriteFile.

Lemma writeFileToStream_writes_then_flushes_witness :
  writeFileToStream (list WriteRequest) (logWrite 2) logFlush
    (oneFile records0) "updates.mrt" [] =
    ([request0; request1], 2, None).
Proof.
  apply (writeFileToStream_writes_then_flushes (list WriteRequest)
           (logWrite 2) logFlush (oneFile records0) "updates.mrt" []
           records0 eq_refl).
  intros pre wr post H.
  destruct pre as [|w1 [|w2 [|w3 pre]]]; [reflexivity|reflexivity| |];
    discriminate H.
Defined.

Lemma writeFileToStream_stops_at_failed_write_witness :
  writeFileToStream (list WriteRequest) (logWrite 1) logFlush
    (oneFile records0) "updates.mrt" [] =
    ([request0; request1], 2, Some "stream is full").
Proof.
  apply (writeFileToStream_stops_at_failed_write (list WriteRequest)
           (logWrite 1) logFlush (oneFile records0) "updates.mrt" []
           records0 [request0] request1 [] "stream is full" eq_refl eq_refl).
  - unfold maxWriteCt. simpl. lia.
  - intros pre1 w pre2 H.
    destruct pre1 as [|w1 [|w2 pre1]]; [reflexivity| |]; discriminate H.
  - reflexivity.
Defined.

End StreamTestFacts.

(* ===================================================================== *)
(** * More properties of the executor and the operation dictionary        *)
(* ===================================================================== *)

Module ExecutorMore.
Import Go sql Executor Derived Scenario ScenarioMore.


Lemma dbops_lookup a :
  (In a knownOps /\ exists tmpl, dbops !! a = Some [tmpl]) \/
  (~ In a knownOps /\ dbops !! a = None).
Proof.
  destruct (decide (In a knownOps)) as [Hin|Hnot].
  - left. split; [exact Hin|].
    unfold knownOps in Hin. simpl in Hin.
    repeat (destruct Hin as [<-|Hin]; [eexists; reflexivity|]).
    destruct Hin.
  - right. split; [exact Hnot|].
    apply not_elem_of_list_to_map_1. intros Hin. apply Hnot.
    apply list_elem_of_In. exact Hin.
Qed.

(** X11. [getdbop] returns a template exactly for the postgres dialect and
    one of the eleven operation names of the table; for any other name,
    and for any other dialect tag (none is populated), it panics. *)
Theorem getdbop_defined_iff :
  forall (d : dbOper) (a : string),
    (exists tmpl, getdbop d a = Ok tmpl) <-> t d = POSTGRES /\ In a knownOps.
Proof.
  intros d a. unfold getdbop, POSTGRES.
  destruct (dbops_lookup a) as [(Hin & tmpl & ->)|(Hnot & ->)].
  - change (Z.of_nat (length [tmpl]) - 1)%Z with 0%Z.
    destruct (Z.ltb_spec 0 (t d)) as [Hpos|Hle].
    + split; [intros [? ?]; discriminate|]. intros [Ht _]. lia.
    + destruct (Z.ltb_spec (t d) 0) as [Hneg|Hge].
      * split; [intros [? ?]; discriminate|]. intros [Ht _]. lia.
      * assert (Ht : t d = 0%Z) by lia. rewrite Ht. simpl.
        split; [intros _; now split|]. intros _. now exists tmpl.
  - split; [intros [? ?]; discriminate|]. now intros [_ Hin].
Qed.

Lemma Exec_in_tx c t q :
  doTx c = true -> tx c = Some t ->
  Exec c q =
    (mkCtxTx true (Some (fst (Tx_Exec t q))) (db c) (released c),
     snd (Tx_Exec t q)).
Proof.
  intros Hd Ht. unfold Exec. rewrite Hd, Ht. now destruct (Tx_Exec t q).
Qed.



Lemma execAll_open qs : forall c t rets,
  doTx c = true -> tx c = Some t -> txState_ t = TxOpen ->
  foldl (fun '(c, rets) q => let (c', ret) := Exec c q in (c', rets ++ [ret]))
        (c, rets) qs =
    (mkCtxTx true (Some (mkTx TxOpen (executed t ++ qs))) (db c) (released c),
     rets ++ map (fun _ => None) qs).
Proof.
  induction qs as [|q qs IH]; intros c t rets Hd Ht Ho; simpl.
  - rewrite !app_nil_r. destruct c as [d tx0 db0 rel], t as [st ex].
    simpl in *. now subst.
  - rewrite (Exec_in_tx c t q Hd Ht). unfold Tx_Exec. rewrite Ho. simpl.
    rewrite (IH (mkCtxTx true (Some (mkTx TxOpen (executed t ++ [q])))
                   (db c) (released c))
               (mkTx TxOpen (executed t ++ [q])) _ eq_refl eq_refl eq_refl).
    simpl. now rewrite <- !app_assoc.
Qed.

Lemma Exec_on_handle c q :
  doTx c = false -> dbOpen (db c) = true ->
  Exec c q =
    (mkCtxTx false (tx c) (mkDB true (ran (db c) ++ [q])) (released c), None).
Proof.
  intros Hd Ho. unfold Exec, DB_Exec. now rewrite Hd, Ho.
Qed.

Lemma execAll_direct qs : forall c rets,
  doTx c = false -> dbOpen (db c) = true ->
  foldl (fun '(c, rets) q => let (c', ret) := Exec c q in (c', rets ++ [ret]))
        (c, rets) qs =
    (mkCtxTx false (tx c) (mkDB true (ran (db c) ++ qs)) (released c),
     rets ++ map (fun _ => None) qs).
Proof.
  induction qs as [|q qs IH]; intros c rets Hd Ho; simpl.
  - rewrite !app_nil_r. destruct c as [d tx0 [o r] rel].
    simpl in *. now subst.
  - rewrite (Exec_on_handle c q Hd Ho).
    rewrite (IH (mkCtxTx false (tx c) (mkDB true (ran (db c) ++ [q]))
                   (released c)) _ eq_refl eq_refl).
    simpl. now rewrite <- !app_assoc.
Qed.

(** X13. Round trip through a transaction: on an open handle a transactional
    executor is obtained; every statement sent through it returns nil;
    and [Done] then returns nil with exactly these statements, in the
    order they were sent, committed, the context released, and the
    handle's own log untouched. *)
Theorem transaction_commits_what_was_executed :
  forall (s : DB) (qs : list statement),
    dbOpen s = true ->
    exists c,
      GetNewExecutor s true = inl c /\
      snd (execAll c qs) = map (fun _ => None) qs /\
      Done (fst (execAll c qs)) =
        (mkCtxTx true (Some (mkTx TxCommitted qs)) s true, None).
Proof.
  intros s qs Ho. unfold GetNewExecutor, DB_BeginTx. rewrite Ho.
  eexists. split; [reflexivity|]. unfold execAll.
  rewrite (execAll_open qs (mkCtxTx true (Some (mkTx TxOpen [])) s false)
             (mkTx TxOpen []) [] eq_refl eq_refl eq_refl).
  simpl. split; reflexivity.
Qed.

(** X14. A direct executor is obtained on any handle, without a transaction.
    On an open handle the statements sent through it run on the handle at
    once and in order, each returning nil, and [Done] only releases the
    context; on a closed handle every statement fails with the
    handle-closed error and changes nothing. *)
Theorem direct_executor_runs_on_the_handle :
  forall (s : DB) (qs : list statement) (q : statement),
    exists c,
      GetNewExecutor s false = inl c /\ tx c = None /\
      (dbOpen s = true ->
         execAll c qs =
           (mkCtxTx false None (mkDB true (ran s ++ qs)) false,
            map (fun _ => None) qs) /\
         Done (fst (execAll c qs)) =
           (mkCtxTx false None (mkDB true (ran s ++ qs)) true, None)) /\
      (dbOpen s = false -> Exec c q = (c, Some ErrDBClosed)).
Proof.
  intros s qs q. unfold GetNewExecutor.
  eexists. split; [reflexivity|]. split; [reflexivity|]. split.
  - intros Ho. unfold execAll.
    rewrite (execAll_direct qs (mkCtxTx false None s false) [] eq_refl Ho).
    simpl. now split.
  - intros Hc. unfold Exec, DB_Exec. simpl. now rewrite Hc.
Qed.


Lemma transaction_commits_what_was_executed_witness :
  exists c,
    GetNewExecutor (mkDB true []) true = inl c /\
    snd (execAll c [statement0; statement1]) = [None; None] /\
    Done (fst (execAll c [statement0; statement1])) =
      (mkCtxTx true (Some (mkTx TxCommitted [statement0; statement1]))
         (mkDB true []) true, None).
Proof.
  apply (transaction_commits_what_was_executed (mkDB true [])
           [statement0; statement1]).
  reflexivity.
Defined.

End ExecutorMore.

(* ===================================================================== *)
(** * More properties of the write stream's own operations                *)
(* ===================================================================== *)

Module StreamMore.
Import Go sql Executor Util Stream Derived Scenario ScenarioMore TxFacts
  StreamFacts.



(** The buffer that [addToBuffer] works on: the one registered for the
    table, or a new one. *)

Lemma addToBuffer_postgres ss msg :
  soper ss = newPostgressDbOper ->
  addToBuffer ss msg =
    match captureRow (GetCapture msg) with
    | None =>
        Ok (mkSessionStream (closed ss) (soper ss) (ex ss)
              (<[GetTableName msg := bufferFor ss (GetTableName msg)]>
                 (buffers ss)), None)
    | Some row =>
        let '(buf', ex', err) :=
          BufAdd (bufferFor ss (GetTableName msg)) (ex ss) row in
        Ok (mkSessionStream (closed ss) (soper ss) ex'
              (<[GetTableName msg := buf']> (buffers ss)), err)
    end.
Proof.
  intros Hop. unfold addToBuffer, bufferFor. rewrite Hop.
  change (getdbop newPostgressDbOper INSERT_CAPTURE_TABLE)
    with (Ok insertCaptureTmpl).
  destruct (buffers ss !! GetTableName msg) as [buf|] eqn:Hb; cbn [bind].
  - destruct (captureRow (GetCapture msg)) as [row|].
    + reflexivity.
    + now rewrite (insert_id _ _ _ Hb).
  - destruct (captureRow (GetCapture msg)) as [row|].
    + destruct (BufAdd _ (ex ss) row) as [[buf' ex'] err].
      now rewrite insert_insert_eq.
    + reflexivity.
Qed.


(** X16. A capture whose peer address does not parse is dropped silently:
    [addToBuffer] returns nil, so the write looks successful, but no row
    reaches a buffer and the executor is not touched; still, the table's
    buffer is registered. *)
Theorem addToBuffer_drops_unparsable_peer :
  forall (ss : SessionStream) (msg : captureMessage),
    soper ss = newPostgressDbOper ->
    is_Some (snd (GetPeerIP (GetCapture msg))) ->
    exists ss',
      addToBuffer ss msg = Ok (ss', None) /\
      ex ss' = ex ss /\
      (forall k buf, buffers ss !! k = Some buf ->
         buffers ss' !! k = Some buf) /\
      (forall buf', buffers ss' !! GetTableName msg = Some buf' ->
         rows buf' = rows (bufferFor ss (GetTableName msg))) /\
      (buffers ss !! GetTableName msg = None ->
         rows <$> (buffers ss' !! GetTableName msg) = Some []).
Proof.
  intros ss msg Hop [e He]. rewrite (addToBuffer_postgres ss msg Hop).
  assert (Hrow : captureRow (GetCapture msg) = None).
  { unfold captureRow. destruct (GetTimeColIP _) as [[? ?] ?].
    destruct (GetPeerIP _) as [ip [e'|]]; [reflexivity|discriminate]. }
  rewrite Hrow. eexists. split; [reflexivity|]. simpl.
  split; [reflexivity|]. split; [|split].
  - intros k buf Hk. destruct (decide (k = GetTableName msg)) as [->|Hne].
    + rewrite lookup_insert_eq. unfold bufferFor. now rewrite Hk.
    + now rewrite lookup_insert_ne.
  - intros buf'. rewrite lookup_insert_eq. now intros [= <-].
  - intros Hn. rewrite lookup_insert_eq. unfold bufferFor. now rewrite Hn.
Qed.


Lemma exExec_done e q : txDone e -> exExec e q = (e, Some ErrTxDone).
Proof.
  intros (Hd & t & Ht & Hs). unfold exExec, Exec, Tx_Exec.
  rewrite Hd, Ht. destruct e as [[d tx0 db0 rel] op rec]. simpl in *.
  subst. destruct t as [st exd]. simpl in *.
  destruct st; try contradiction; reflexivity.
Qed.

Lemma issueEach_done stmt rs e : txDone e -> fst (issueEach stmt rs e) = e.
Proof.
  intros Hd. destruct rs as [|r rest]; simpl; [reflexivity|].
  now rewrite exExec_done.
Qed.

Lemma issue_done b rs e : txDone e -> fst (issue b rs e) = e.
Proof.
  intros Hd. unfold issue. destruct (wrap b).
  - now rewrite exExec_done.
  - now apply issueEach_done.
Qed.

Lemma BufAdd_done b e vals : txDone e -> snd (fst (BufAdd b e vals)) = e.
Proof.
  intros Hd. unfold BufAdd. destruct (stored b); [reflexivity|].
  destruct (negb _); [reflexivity|].
  destruct (_ <=? _)%nat; [|reflexivity].
  pose proof (issue_done b (rows b ++ [vals]) e Hd).
  now destruct (issue b (rows b ++ [vals]) e).
Qed.

Lemma BufFlush_done b e : txDone e -> snd (fst (BufFlush b e)) = e.
Proof.
  intros Hd. unfold BufFlush. destruct (rows b) as [|r rs]; [reflexivity|].
  pose proof (issue_done b (r :: rs) e Hd).
  now destruct (issue b (r :: rs) e).
Qed.

Lemma addToBuffer_done ss msg ss' err :
  txDone (ex ss) -> addToBuffer ss msg = Ok (ss', err) -> ex ss' = ex ss.
Proof.
  intros Hd. unfold addToBuffer.
  destruct (buffers ss !! GetTableName msg) as [buf|]; cbn [bind].
  - destruct (captureRow (GetCapture msg)) as [row|].
    + pose proof (BufAdd_done buf (ex ss) row Hd) as H.
      destruct (BufAdd buf (ex ss) row) as [[buf' ex'] r].
      now intros [= <- <-].
    + now intros [= <- <-].
  - destruct (getdbop (soper ss) INSERT_CAPTURE_TABLE) as [tmpl|m];
      cbn [bind]; [|discriminate].
    destruct (captureRow (GetCapture msg)) as [row|].
    + pose proof (BufAdd_done
                    (NewInsertBuffer (Sprintf tmpl [GetTableName msg])
                       BUFFER_SIZE 9 true) (ex ss) row Hd) as H.
      destruct (BufAdd _ (ex ss) row) as [[buf' ex'] r].
      now intros [= <- <-].
    + now intros [= <- <-].
Qed.

Lemma handled_done msgs : forall ss,
  txDone (ex ss) -> ex (RuntimeMore.handled ss msgs) = ex ss.
Proof.
  induction msgs as [|msg msgs IH]; intros ss Hd; simpl; [reflexivity|].
  destruct (addToBuffer ss msg) as [[ss' err]|m] eqn:Ha.
  - pose proof (addToBuffer_done ss msg ss' err Hd Ha) as He.
    rewrite IH; [exact He|now rewrite He].
  - now apply IH.
Qed.

Lemma flushLoop_done (l : list (string * InsertBuffer)) :
  forall (m : gmap string InsertBuffer) e rets,
    txDone e ->
    snd (fst (foldl (fun '(m, e, rets) '(key, buf) =>
                       let '(buf', e', ret) := BufFlush buf e in
                       (<[key := buf']> m, e', rets ++ [ret]))
                    (m, e, rets) l)) = e.
Proof.
  induction l as [|[k b] l IH]; intros m e rets Hd; simpl; [reflexivity|].
  pose proof (BufFlush_done b e Hd) as H.
  destruct (BufFlush b e) as [[b' e'] ret]. simpl in H. subst e'.
  now apply IH.
Qed.

Lemma Flush_done ss :
  txDone (ex ss) ->
  tx (cex (ex (fst (Flush ss)))) = tx (cex (ex ss)).
Proof.
  intros Hd. unfold Flush, flushBuffers.
  pose proof (flushLoop_done (map_to_list (buffers ss)) (buffers ss) (ex ss)
                [] Hd) as H.
  destruct (foldl _ _ _) as [[bufs' ex'] rets]. simpl in H. subst ex'.
  destruct Hd as (Hdo & t & Ht & Hs).
  unfold exDone, Done, Tx_Commit. rewrite Hdo, Ht.
  destruct t as [st exd]. simpl in *.
  destruct st; try contradiction; reflexivity.
Qed.

Lemma Flush_finishes ss t :
  doTx (cex (ex ss)) = true -> tx (cex (ex ss)) = Some t ->
  txDone (ex (fst (Flush ss))).
Proof.
  intros Hd Ht. unfold Flush.
  destruct (flushBuffers (buffers ss) (ex ss)) as [[bufs' ex'] rets] eqn:Hf.
  destruct (flushBuffers_spec _ _ _ _ _ Hf) as (Hs & _).
  unfold txShape, txStateOf in Hs. rewrite Hd, Ht in Hs. simpl in Hs.
  injection Hs as Hd' Ht'.
  destruct (tx (cex ex')) as [t'|] eqn:Ht''; [|discriminate].
  unfold exDone, Done. rewrite Hd', Ht''.
  unfold txDone, Tx_Commit. simpl.
  destruct (txState_ t') eqn:E; simpl; split; try reflexivity;
    eexists; (split; [reflexivity|]); simpl; congruence.
Qed.

(** X17. A write stream can be flushed to effect only once.  The first
    [Flush] finishes the transaction; whatever [listen] puts into the
    buffers afterwards, the transaction holds the same statements as right
    after that [Flush], also after a second [Flush]: rows written after a
    [Flush] are never stored. *)
Theorem stream_is_single_use :
  forall (ss : SessionStream) (t : Tx) (msgs : list captureMessage),
    doTx (cex (ex ss)) = true -> tx (cex (ex ss)) = Some t ->
    txStateOf (ex (fst (Flush ss))) <> Some TxOpen /\
    tx (cex (ex (RuntimeMore.handled (fst (Flush ss)) msgs))) =
      tx (cex (ex (fst (Flush ss)))) /\
    tx (cex (ex (fst (Flush (RuntimeMore.handled (fst (Flush ss)) msgs))))) =
      tx (cex (ex (fst (Flush ss)))).
Proof.
  intros ss t msgs Hd Ht.
  pose proof (Flush_finishes ss t Hd Ht) as Hdone.
  pose proof (handled_done msgs _ Hdone) as Hh.
  split.
  - destruct Hdone as (_ & t' & Ht' & Hs). unfold txStateOf. rewrite Ht'.
    simpl. congruence.
  - split; [now rewrite Hh|].
    rewrite Flush_done; now rewrite Hh.
Qed.









Lemma addToBuffer_drops_unparsable_peer_witness :
  exists ss',
    addToBuffer stream0 message2 = Ok (ss', None) /\
    ex ss' = ex stream0 /\
    rows <$> (buffers ss' !! GetTableName message2) = Some [].
Proof.
  destruct (addToBuffer_drops_unparsable_peer stream0 message2 eq_refl
              (ex_intro _ _ eq_refl))
    as (ss' & Ha & He & _ & _ & Hn).
  exists ss'. split; [exact Ha|]. split; [exact He|]. exact (Hn eq_refl).
Defined.

Lemma stream_is_single_use_witness :
  txStateOf (ex (fst (Flush stream0))) <> Some TxOpen /\
  tx (cex (ex (RuntimeMore.handled (fst (Flush stream0)) [message0]))) =
    tx (cex (ex (fst (Flush stream0)))) /\
  tx (cex (ex (fst (Flush (RuntimeMore.handled (fst (Flush stream0))
                             [message0]))))) =
    tx (cex (ex (fst (Flush stream0)))).
Proof.
  apply (stream_is_single_use stream0 (mkTx TxOpen []) [message0]);
    reflexivity.
Defined.

End StreamMore.

(* ===================================================================== *)
(** * More properties of sessions                                         *)
(* ===================================================================== *)

Module SessionMore.
Import Go sql Executor Util Session Derived Scenario ScenarioMore
  SessionFacts.

Section Constructor.
Context {NodeConfig : Type}.
Variable sqlOpen : string -> string -> DB + error.
Variable makeSchema : DB -> string -> string -> string -> option error.
Variable syncNodes : DB -> list NodeConfig -> list NodeConfig.

#[local] Abbreviation NewSession := (NewSession sqlOpen makeSchema syncNodes).

Lemma string_app_empty_r (s : string) : s +:+ "" = s.
Proof.
  induction s as [|c s IH]; [reflexivity|].
  change (String c s +:+ "") with (String c (s +:+ "")). now rewrite IH.
Qed.

(** X19. A session type other than postgres is refused before anything is
    opened: cockroachdb with "cockroach not yet supported", every other
    name with "Unknown session type". *)
Theorem NewSession_other_types :
  forall (conf : SessionConfig NodeConfig) (id : string) (nworkers : nat),
    GetTypeName conf <> "postgres" ->
    NewSession conf id nworkers =
      Ok (inr (if String.eqb (GetTypeName conf) "cockroachdb"
               then errCockroach else errUnknownType)).
Proof.
  intros conf id nworkers Hty. unfold Session.NewSession.
  destruct (String.eqb_spec (GetTypeName conf) "postgres"); [contradiction|].
  now destruct (String.eqb (GetTypeName conf) "cockroachdb").
Qed.

(** X20. In no-SSL mode the handle is opened with the driver postgres and the
    string user=U password=P dbname=D host=H sslmode=disable built from
    the configuration and its single host name.  An error of [sql.Open]
    comes back wrapped as "sql open: ...", an error of the schema
    bootstrap comes back as it is, and in both cases there is no session;
    otherwise the session carries the given id, an open cancel channel, an
    empty worker pool of the given size, the postgres dialect and the
    handle, and the merged nodes are what the node synchronisation
    returned for the configured nodes. *)
Theorem NewSession_noSSL_outcome :
  forall (conf : SessionConfig NodeConfig) (id : string) (nworkers : nat)
         (h0 : string),
    GetTypeName conf = "postgres" ->
    noSSLCriteria conf -> GetHostNames conf = [h0] ->
    NewSession conf id nworkers =
      match sqlOpen "postgres"
              (connNoSSL (GetUser conf) (GetPassword conf)
                 (GetDatabaseName conf) h0) with
      | inr err => Ok (inr ("sql open: " +:+ err))
      | inl db => bootstrap makeSchema syncNodes conf id nworkers
                    newPostgressDbOper db
      end.
Proof.
  intros conf id nworkers h0 Hty Hc Hh.
  rewrite (NewSession_postgres sqlOpen makeSchema syncNodes conf id nworkers
             Hty).
  rewrite (postgresConstr_noSSL conf Hc). cbn [bind].
  unfold Session.openPostgres. rewrite Hh.
  reflexivity.
Qed.

(** X21. In SSL mode the connection string is user=U password=P dbname=D
    host=H without an sslmode, where H is the first host name: further
    host names are ignored, and the password may be empty.  From there on
    the constructor goes on as in no-SSL mode. *)
Theorem NewSession_SSL_outcome :
  forall (conf : SessionConfig NodeConfig) (id : string) (nworkers : nat)
         (h0 : string) (others : list string),
    GetTypeName conf = "postgres" ->
    sslCriteria conf -> GetHostNames conf = h0 :: others ->
    NewSession conf id nworkers =
      match sqlOpen "postgres"
              (connSSL (GetUser conf) (GetPassword conf)
                 (GetDatabaseName conf) h0) with
      | inr err => Ok (inr ("sql open: " +:+ err))
      | inl db => bootstrap makeSchema syncNodes conf id nworkers
                    newPostgressDbOper db
      end.
Proof.
  intros conf id nworkers h0 others Hty Hc Hh.
  rewrite (NewSession_postgres sqlOpen makeSchema syncNodes conf id nworkers
             Hty).
  rewrite (postgresConstr_SSL conf Hc). cbn [bind].
  unfold Session.openPostgres. rewrite Hh.
  cbn [index nth_error bind].
  replace (Sprintf tmplSSL [GetUser conf; GetPassword conf;
                            GetDatabaseName conf; h0])
    with (connSSL (GetUser conf) (GetPassword conf) (GetDatabaseName conf)
            h0); [reflexivity|].
  unfold connSSL, tmplSSL. cbn. now rewrite string_app_empty_r.
Qed.
End Constructor.

(** X22. [Close] can be called only once on a session: once a call has closed
    the cancel channel, whether it returned or is held in the worker pool,
    a further call panics on closing the channel again. *)
Theorem Session_Close_twice_panics :
  forall (s s' : Session),
    (forall err, Session_Close s = Returned s' err ->
       Session_Close s' = ClosePanics "close of closed channel") /\
    (Session_Close s = HeldInWpClose s' ->
       Session_Close s' = ClosePanics "close of closed channel").
Proof.
  intros s s'. unfold Session_Close, drainAndStop, closeCancel.
  destruct (cancelClosed s) eqn:Hc; [split; intros; discriminate|].
  simpl. destruct (wpClose (wp s)) as [w|]; split; intros; try discriminate.
  - match goal with H : Returned _ _ = Returned _ _ |- _ =>
      injection H as <- _ end. reflexivity.
  - match goal with H : HeldInWpClose _ = HeldInWpClose _ |- _ =>
      injection H as <- end. reflexivity.
Qed.

Lemma NewSession_other_types_witness :
  NewSession openAny schemaOk syncNone confCockroach "5f2b" 4 =
    Ok (inr errCockroach).
Proof.
  apply (NewSession_other_types openAny schemaOk syncNone confCockroach
           "5f2b" 4).
  discriminate.
Defined.

Lemma NewSession_noSSL_outcome_witness :
  NewSession openAny schemaOk syncNone confNoSSL "5f2b" 4 =
    match openAny "postgres"
            "user=bgpmon password=secret dbname=bgpmon host=db.example.net sslmode=disable"
    with
    | inr err => Ok (inr ("sql open: " +:+ err))
    | inl db => bootstrap schemaOk syncNone confNoSSL "5f2b" 4
                  newPostgressDbOper db
    end.
Proof.
  apply (NewSession_noSSL_outcome openAny schemaOk syncNone confNoSSL
           "5f2b" 4 "db.example.net" eq_refl).
  - split; [reflexivity|]. split; [discriminate|].
    split; [reflexivity|discriminate].
  - reflexivity.
Defined.

Lemma NewSession_SSL_outcome_witness :
  NewSession openAny schemaOk syncNone confSSLTwoHosts "5f2b" 4 =
    match openAny "postgres"
            "user=bgpmon password= dbname=bgpmon host=db1.example.net"
    with
    | inr err => Ok (inr ("sql open: " +:+ err))
    | inl db => bootstrap schemaOk syncNone confSSLTwoHosts "5f2b" 4
                  newPostgressDbOper db
    end.
Proof.
  apply (NewSession_SSL_outcome openAny schemaOk syncNone confSSLTwoHosts
           "5f2b" 4 "db1.example.net" ["db2.example.net"] eq_refl).
  - split; discriminate.
  - reflexivity.
Defined.

End SessionMore.

(* ===================================================================== *)
(** * More properties of the running write stream                         *)
(* ===================================================================== *)

Module RuntimeMoreFacts.
Import Go sql Executor Util Stream Session Runtime RuntimeMore Derived
  Scenario ScenarioMore TxFacts RuntimeFacts StreamMore.

Section Safety.
Variable getTable : string -> Z -> string + error.
Variables (prog : list op) (base : nat).

#[local] Abbreviation next := (next getTable).
#[local] Abbreviation step := (step getTable).
#[local] Abbreviation reachable := (reachable getTable).
#[local] Abbreviation Inv2 := (Inv2 prog base).

Ltac cases H :=
  repeat match type of H with
         | In _ (_ ++ _) => apply in_app_or in H; destruct H as [H|H]
         | In _ (if ?b then _ else _) => destruct b eqn:?
         | In _ [] => destruct H
         | In _ [_] => destruct H as [H|[]]
         end.

Ltac close :=
  simpl;
  repeat match goal with
         | H : ?b = _ |- context [if ?b then _ else _] => rewrite H
         end;
  auto; try discriminate;
  try solve [intuition (try congruence; eauto)].

Lemma crash_Inv2 s msg : Inv2 s -> Inv2 (crash s msg).
Proof. intros [P1 P2 P3 P4 P5 P5' P6 P7 P8]. now constructor. Qed.

Lemma fwdSteps_Inv2 s s' : Inv2 s -> In s' (fwdSteps s) -> Inv2 s'.
Proof.
  intros [P1 P2 P3 P4 P5 P5' P6 P7 P8] H. unfold fwdSteps in H.
  destruct (fwd s) eqn:Hf; cases H; subst s'; constructor; close.
Qed.

Lemma lisSteps_Inv2 s s' : Inv s -> Inv2 s -> In s' (lisSteps s) -> Inv2 s'.
Proof.
  intros HI HI2 H. pose proof HI2 as [P1 P2 P3 P4 P5 P5' P6 P7 P8].
  unfold lisSteps in H.
  destruct (lis s) eqn:Hl; try (now destruct H).
  cases H.
  - destruct (fwd s) as [|normal|] eqn:Hf; cases H. subst s'.
    unfold takeCancel. destruct normal; constructor; close.
  - destruct (inv_daemon s HI Heqb); congruence.
  - destruct (owner s) as [|wr msg|wr|] eqn:Ho; cases H. subst s'.
    unfold takeRequest.
    destruct (addToBuffer (stream s) msg) as [[ss' err]|m] eqn:Ha.
    + destruct (addToBuffer_keeps _ _ _ _ Ha) as (_ & Hcl).
      constructor; close.
      rewrite Hcl. intros Hc. destruct (P4 Hc); congruence.
    + now apply crash_Inv2.
  - now subst s'.
Qed.

Lemma ret_Inv2 s o err lis' rc ss' rest :
  Inv2 s -> o <> OpClose ->
  map fst (returned s) ++ o :: rest = prog ->
  (lis' = lis s \/ (exists r, lis s = LisReply r) /\ lis' = LisSelect) ->
  (closed ss' = true -> closed (stream s) = true) ->
  (closed (stream s) = true -> (exists r, lis s = LisReply r) -> False) ->
  Inv2 (ret s o err lis' rc ss' rest).
Proof.
  intros [P1 P2 P3 P4 P5 P5' P6 P7 P8] Hoc Hord Hl Hcl Hno. unfold ret.
  constructor; simpl.
  - rewrite map_app, <- app_assoc. exact Hord.
  - exact P2.
  - intros ->. destruct Hl as [Hl|[_ Hl]]; [|discriminate]. auto.
  - intros Hc. specialize (P4 (Hcl Hc)).
    destruct Hl as [->|[Hr ->]]; [exact P4|].
    exfalso. apply Hno; auto.
  - intros Hr. destruct (P5 Hr) as (Hc & Hin). split; [exact Hc|].
    rewrite map_app, in_app_iff. now left.
  - rewrite map_app, in_app_iff. simpl. intros [Hin|[Heq|[]]]; auto.
  - discriminate.
  - exact P7.
  - exact P8.
Qed.

Lemma ownerSteps_Inv2 s s' :
  Inv s -> Inv2 s -> In s' (ownerSteps getTable s) -> Inv2 s'.
Proof.
  intros HI HI2 H. pose proof HI2 as [P1 P2 P3 P4 P5 P5' P6 P7 P8].
  assert (Hno : closed (stream s) = true ->
                (exists r, lis s = LisReply r) -> False).
  { intros Hc [r Hr]. destruct (P4 Hc); congruence. }
  unfold ownerSteps in H.
  destruct (owner s) as [|wr msg|wr|] eqn:Ho.
  - destruct (todo s) as [|o rest] eqn:Ht; [destruct H|].
    destruct o as [wr| | |].
    + destruct (sendPrologue getTable wr) as [msg|err]; cases H; subst s'.
      * constructor; close.
      * apply ret_Inv2; auto; try discriminate.
    + cases H. subst s'. apply ret_Inv2; auto; try discriminate.
      now rewrite Flush_keeps_closed.
    + cases H. subst s'. apply ret_Inv2; auto; try discriminate.
    + cases H; subst s'; [now apply crash_Inv2|].
      constructor; close.
      destruct (reqClosed s) eqn:Hr; [|auto].
      destruct (P5 eq_refl). congruence.
  - cases H. subst s'. now apply crash_Inv2.
  - destruct (proj1 (inv_pair s HI)) as [r Hr]; [eauto|].
    rewrite Hr in H. cases H. subst s'.
    apply ret_Inv2; auto; try discriminate. right. eauto.
  - destruct (P6 eq_refl) as (Hc & Hr).
    rewrite Hr in H. cases H. subst s'.
    constructor; close.
    + simpl in P1. rewrite map_app, <- app_assoc. exact P1.
    + intros _. split; [exact Hc|]. rewrite map_app, in_app_iff.
      right. now left.
    + rewrite P7, Hr. reflexivity.
    + intros Hcl. specialize (P8 Hcl). rewrite P7, Hr in P8. discriminate.
Qed.

Lemma closerSteps_Inv2 s s' : Inv2 s -> In s' (closerSteps s) -> Inv2 s'.
Proof.
  intros HI2 H. pose proof HI2 as [P1 P2 P3 P4 P5 P5' P6 P7 P8].
  unfold closerSteps in H.
  destruct (closer s) eqn:Hc; [| |destruct H].
  - cases H; subst s'; [now apply crash_Inv2|]. constructor; close.
  - unfold drainAndStop, wpClose in H.
    destruct (Nat.eqb_spec (outstanding (wp (sess s))) 0) as [H0|H0];
      cases H. subst s'.
    constructor; close.
Qed.

Lemma step_Inv2 s s' : Inv s -> Inv2 s -> step s s' -> Inv2 s'.
Proof.
  intros HI HI2 H. unfold Runtime.step, Runtime.next in H.
  destruct (crashed s); [destruct H|].
  cases H; eauto using fwdSteps_Inv2, lisSteps_Inv2, ownerSteps_Inv2,
    closerSteps_Inv2.
Qed.

Lemma reachable_Inv2 s0 s :
  Inv s0 -> Inv2 s0 -> reachable s0 s -> Inv s /\ Inv2 s.
Proof.
  intros H0 H2 Hr. induction Hr as [s|s s1 s2 Hs Hr IH]; [now split|].
  apply IH; [eapply step_Inv|eapply step_Inv2]; eauto.
Qed.

Lemma openStream_Inv2 se s0 :
  openStream se prog = Some s0 -> Runtime.Inv s0 /\
  RuntimeMore.Inv2 prog (outstanding (wp se)) s0.
Proof.
  intros Ho. split; [exact (openStream_Inv se prog s0 Ho)|].
  revert Ho. unfold openStream, GetNewExecutor, DB_BeginTx, wpAdd.
  destruct (wpClosed (wp se)); [discriminate|].
  destruct (_ <? _)%nat; [|discriminate].
  destruct (dbOpen (Session.db se)); [|discriminate].
  intros [= <-]. constructor; simpl; auto; try discriminate; tauto.
Qed.

(** An owner at its channel send on a closed [req] stays there: no other
    goroutine moves it, and its only own step is the panic. *)
Lemma closed_send_step s s' wr msg :
  owner s = SendReq wr msg -> reqClosed s = true -> step s s' ->
  owner s' = SendReq wr msg /\ reqClosed s' = true /\
  returned s' = returned s.
Proof.
  intros Ho Hr H. unfold Runtime.step, Runtime.next in H.
  destruct (crashed s); [destruct H|].
  cases H.
  - unfold fwdSteps in H. destruct (fwd s); cases H; subst s'; auto.
  - unfold lisSteps in H. destruct (lis s); cases H.
    + destruct (fwd s) as [|normal|]; cases H. subst s'.
      unfold takeCancel. destruct normal; auto.
    + subst s'. unfold takeCancel. simpl. auto.
    + rewrite Ho, Hr in H. destruct H.
    + subst s'. auto.
  - unfold ownerSteps in H. rewrite Ho, Hr in H. cases H. subst s'. auto.
  - unfold closerSteps, drainAndStop in H.
    destruct (closer s); cases H; try (subst s'; auto).
    destruct (wpClose (wp (sess s))); cases H. subst s'. auto.
Qed.

Lemma closed_send_stays s s' wr msg :
  owner s = SendReq wr msg -> reqClosed s = true -> reachable s s' ->
  owner s' = SendReq wr msg /\ returned s' = returned s.
Proof.
  intros Ho Hr H. induction H as [s|s s1 s2 Hs H IH]; [auto|].
  destruct (closed_send_step s s1 wr msg Ho Hr Hs) as (Ho1 & Hr1 & Hret).
  destruct (IH Ho1 Hr1) as (Ho2 & Hret2). split; congruence.
Qed.

Lemma reachable_trans s1 s2 s3 :
  reachable s1 s2 -> reachable s2 s3 -> reachable s1 s3.
Proof.
  intros H12. revert s3.
  induction H12 as [s|s s' s2 Hs H12 IH]; intros s3 H23; [assumption|].
  apply rtc_l with s'; [exact Hs|exact (IH s3 H23)].
Qed.

Lemma step_fwd s s' : crashed s = None -> In s' (fwdSteps s) -> step s s'.
Proof.
  intros Hc H. unfold Runtime.step, Runtime.next. rewrite Hc.
  apply in_or_app. now left.
Qed.

Lemma step_lis s s' : crashed s = None -> In s' (lisSteps s) -> step s s'.
Proof.
  intros Hc H. unfold Runtime.step, Runtime.next. rewrite Hc.
  apply in_or_app. right. apply in_or_app. now left.
Qed.

Lemma step_owner s s' :
  crashed s = None -> In s' (ownerSteps getTable s) -> step s s'.
Proof.
  intros Hc H. unfold Runtime.step, Runtime.next. rewrite Hc.
  apply in_or_app. right. apply in_or_app. right. apply in_or_app. now left.
Qed.

Lemma addToBuffer_runs ss msg :
  soper ss = newPostgressDbOper ->
  exists ss' err,
    addToBuffer ss msg = Ok (ss', err) /\ soper ss' = soper ss.
Proof.
  intros Hop. rewrite (addToBuffer_postgres ss msg Hop).
  destruct (captureRow (GetCapture msg)) as [row|]; [|eauto].
  destruct (BufAdd _ (ex ss) row) as [[buf' ex'] err]. eauto.
Qed.

(** One [Write] on an idle stream runs to its return and leaves the
    stream idle, the transaction as it was. *)
Lemma write_returns s wr rest :
  Idle s -> todo s = OpWrite wr :: rest ->
  exists s',
    reachable s s' /\ Idle s' /\ todo s' = rest /\
    map fst (returned s') = map fst (returned s) ++ [OpWrite wr] /\
    txShape (ex (stream s')) = txShape (ex (stream s)) /\
    sess s' = sess s.
Proof.
  intros [Hc Ho Hl Hf Hcc Hrq Hd] Ht.
  destruct (sendPrologue getTable wr) as [msg|err] eqn:Hp.
  - destruct (addToBuffer_runs (stream s) msg Hd) as (ss' & err & Ha & Hd').
    destruct (addToBuffer_keeps _ _ _ _ Ha) as (Hsh & _).
    set (s1 := mkSystem (sess s) (childClosed s) (reqClosed s)
                 (respClosed s) (daemonClosed s) (fwd s) (lis s) (stream s)
                 (SendReq wr msg) rest (returned s) (closer s) (crashed s)).
    set (s2 := mkSystem (sess s) (childClosed s) (reqClosed s)
                 (respClosed s) (daemonClosed s) (fwd s) (LisReply err) ss'
                 (RecvResp wr) rest (returned s) (closer s) (crashed s)).
    exists (ret s2 (OpWrite wr) err LisSelect (respClosed s2) (stream s2)
              (todo s2)).
    split; [|split; [|split; [|split; [|split]]]].
    + apply rtc_l with s1.
      { apply step_owner; [exact Hc|]. unfold ownerSteps.
        rewrite Ho, Ht, Hp. now left. }
      apply rtc_l with s2.
      { apply step_lis; [exact Hc|]. unfold lisSteps. simpl. rewrite Hl.
        apply in_or_app. right. apply in_or_app. right. apply in_or_app.
        left. rewrite Hrq. left. unfold takeRequest. simpl. now rewrite Ha. }
      apply rtc_once. apply step_owner; [exact Hc|]. unfold ownerSteps.
      simpl. now left.
    + constructor; simpl; auto. congruence.
    + reflexivity.
    + simpl. now rewrite map_app.
    + exact Hsh.
    + reflexivity.
  - exists (ret s (OpWrite wr) (Some err) (lis s) (respClosed s) (stream s)
              rest).
    split; [|split; [|split; [|split; [|split]]]].
    + apply rtc_once. apply step_owner; [exact Hc|]. unfold ownerSteps.
      rewrite Ho, Ht, Hp. now left.
    + constructor; simpl; auto.
    + reflexivity.
    + simpl. now rewrite map_app.
    + reflexivity.
    + reflexivity.
Qed.

Lemma writes_return wrs : forall s rest,
  Idle s -> todo s = map OpWrite wrs ++ rest ->
  exists s',
    reachable s s' /\ Idle s' /\ todo s' = rest /\
    map fst (returned s') = map fst (returned s) ++ map OpWrite wrs /\
    txShape (ex (stream s')) = txShape (ex (stream s)) /\
    sess s' = sess s.
Proof.
  induction wrs as [|wr wrs IH]; intros s rest Hi Ht.
  - exists s. simpl. rewrite app_nil_r.
    split; [apply rtc_refl|]. split; [exact Hi|]. split; [exact Ht|].
    split; [|split]; reflexivity.
  - destruct (write_returns s wr (map OpWrite wrs ++ rest) Hi Ht)
      as (s1 & Hr1 & Hi1 & Ht1 & Hret1 & Hsh1 & Hse1).
    destruct (IH s1 rest Hi1 Ht1) as (s2 & Hr2 & Hi2 & Ht2 & Hret2 & Hsh2 & Hse2).
    exists s2. split; [now apply reachable_trans with s1|].
    split; [exact Hi2|]. split; [exact Ht2|].
    split; [|split; congruence].
    rewrite Hret2, Hret1, <- app_assoc. reflexivity.
Qed.

(** [Flush] and [Close] on an idle stream whose transaction is open, and
    the forwarder and [listen] after them. *)
Lemma flush_close_return s :
  Idle s -> todo s = [OpFlush; OpClose] ->
  txShape (ex (stream s)) = (true, Some TxOpen) ->
  exists s',
    reachable s s' /\ crashed s' = None /\ owner s' = Ready /\
    todo s' = [] /\ lis s' = LisExit /\ fwd s' = FwdExit /\
    returned s' = returned s ++ [(OpFlush, None); (OpClose, None)] /\
    txStateOf (ex (stream s')) = Some TxCommitted /\
    (forall k b, buffers (stream s') !! k = Some b -> rows b = []) /\
    outstanding (wp (sess s')) = pred (outstanding (wp (sess s))).
Proof.
  intros [Hc Ho Hl Hf Hcc Hrq Hd] Ht Hsh.
  destruct (Flush_commits (stream s) Hsh) as (Hcm & Hrows).
  assert (Hnil : snd (Flush (stream s)) = None).
  { unfold Flush. destruct (flushBuffers _ _) as [[bufs' ex'] rets].
    now destruct (exDone ex'). }
  set (s1 := ret s OpFlush None (lis s) (respClosed s)
               (fst (Flush (stream s))) [OpClose]).
  set (s2 := mkSystem (sess s1) true (reqClosed s1) (respClosed s1)
               (daemonClosed s1) (fwd s1) (lis s1) (stream s1) Closing []
               (returned s1) (closer s1) (crashed s1)).
  set (s3 := mkSystem
               (mkSession (uuid (sess s2)) (cancelClosed (sess s2))
                  (wpDone (wp (sess s2))) (dbo (sess s2))
                  (Session.db (sess s2)) (schema (sess s2)))
               (childClosed s2) true (respClosed s2) (daemonClosed s2)
               (fwd s2) (lis s2) (stream s2) Ready (todo s2)
               (returned s2 ++ [(OpClose, None)]) (closer s2) (crashed s2)).
  set (s4 := mkSystem (sess s3) (childClosed s3) (reqClosed s3)
               (respClosed s3) (daemonClosed s3) (FwdSend true) (lis s3)
               (stream s3) (owner s3) (todo s3) (returned s3) (closer s3)
               (crashed s3)).
  exists (takeCancel s4 true FwdExit true).
  split; [|split; [|split; [|split; [|split; [|split; [|split;
    [|split; [|split]]]]]]]].
  - apply rtc_l with s1.
    { apply step_owner; [exact Hc|]. unfold ownerSteps.
      rewrite Ho, Ht, Hnil. now left. }
    apply rtc_l with s2.
    { apply step_owner; [exact Hc|]. unfold ownerSteps. simpl.
      rewrite Hcc. now left. }
    apply rtc_l with s3.
    { apply step_owner; [exact Hc|]. unfold ownerSteps. simpl.
      rewrite Hrq. now left. }
    apply rtc_l with s4.
    { apply step_fwd; [exact Hc|]. unfold fwdSteps. simpl. rewrite Hf.
      apply in_or_app. right. now left. }
    apply rtc_once. apply step_lis; [exact Hc|]. unfold lisSteps. simpl.
    rewrite Hl. now left.
  - exact Hc.
  - reflexivity.
  - reflexivity.
  - reflexivity.
  - reflexivity.
  - simpl. now rewrite <- app_assoc.
  - exact Hcm.
  - exact Hrows.
  - reflexivity.
Qed.

End Safety.


(** X24. The stream is marked closed exactly when [listen] has left its loop.
    [listen] returns only after the owner's [Close] has closed the
    stream's cancel channel, and then [resp] is closed; a close of the
    session alone never makes it return.  [req] is closed exactly when a
    [Close] of the stream has returned. *)
Theorem listen_returns_only_after_Close :
  forall getTable se prog s0 s,
    openStream se prog = Some s0 ->
    reachable getTable s0 s ->
    (closed (stream s) = true <->
     lis s = LisReplyClosed \/ lis s = LisExit) /\
    (lis s = LisExit -> childClosed s = true /\ respClosed s = true) /\
    (reqClosed s = true <-> In OpClose (map fst (returned s))).
Proof.
  intros getTable se prog s0 s Ho Hr.
  destruct (openStream_Inv2 prog se s0 Ho) as (HI & HI2).
  destruct (reachable_Inv2 getTable prog _ s0 s HI HI2 Hr) as (H1 & H2).
  split; [split|split].
  - exact (inv_closed _ _ _ H2).
  - intros [Hl|Hl].
    + exact (proj2 (inv_offer _ H1 Hl)).
    + exact (proj1 (inv_exit _ H1 Hl)).
  - intros Hl. split.
    + exact (inv_exit_clean _ _ _ H2 Hl).
    + exact (proj2 (inv_exit _ H1 Hl)).
  - split.
    + intros Hq. exact (proj2 (inv_req _ _ _ H2 Hq)).
    + exact (inv_close_returned _ _ _ H2).
Qed.

(** X25. Once [Close] has returned, the stream must not be used for [Write]
    or [Close]: a second [Close] panics on closing the cancel channel
    again, and a [Write] that gets past the schema manager panics at its
    send on the closed request channel; until it does, the [Write] does
    not return, whatever the other goroutines do. *)
Theorem use_after_Close_panics :
  forall getTable se prog s0 s rest,
    openStream se prog = Some s0 ->
    reachable getTable s0 s ->
    owner s = Ready ->
    In OpClose (map fst (returned s)) ->
    (todo s = OpClose :: rest ->
     ownerSteps getTable s = [crash s "close of closed channel"]) /\
    (forall wr msg,
       todo s = OpWrite wr :: rest ->
       sendPrologue getTable wr = inl msg ->
       exists s1,
         ownerSteps getTable s = [s1] /\
         ownerSteps getTable s1 = [crash s1 "send on closed channel"] /\
         forall s',
           reachable getTable s1 s' ->
           owner s' = SendReq wr msg /\ returned s' = returned s).
Proof.
  intros getTable se prog s0 s rest Hopen Hr Ho Hin.
  destruct (openStream_Inv2 prog se s0 Hopen) as (HI & HI2).
  destruct (reachable_Inv2 getTable prog _ s0 s HI HI2 Hr) as (H1 & H2).
  pose proof (inv_close_returned _ _ _ H2 Hin) as Hq.
  destruct (inv_req _ _ _ H2 Hq) as (Hc & _).
  split.
  - intros Ht. unfold ownerSteps. now rewrite Ho, Ht, Hc.
  - intros wr msg Ht Hp. eexists. split; [|split].
    + unfold ownerSteps. rewrite Ho, Ht, Hp. reflexivity.
    + unfold ownerSteps. simpl. now rewrite Hq.
    + intros s' Hr'.
      apply (closed_send_stays getTable _ s' wr msg) in Hr';
        [exact Hr'|reflexivity|exact Hq].
Qed.

(** X26. [Session.Close] returns only after the stream's [Close] has
    returned: until then the stream holds its slot of the worker pool and
    [Session.Close] is held in the pool's [Close]. *)
Theorem Session_Close_waits_for_stream_Close :
  forall getTable se prog s0 s,
    openStream se prog = Some s0 ->
    reachable getTable s0 s ->
    closer s = CloseReturned ->
    In OpClose (map fst (returned s)) /\ childClosed s = true /\
    outstanding (wp se) = 0.
Proof.
  intros getTable se prog s0 s Ho Hr Hc.
  destruct (openStream_Inv2 prog se s0 Ho) as (HI & HI2).
  destruct (reachable_Inv2 getTable prog _ s0 s HI HI2 Hr) as (H1 & H2).
  pose proof (inv_closer _ _ _ H2 Hc) as H0.
  pose proof (inv_slot _ _ _ H2) as Hs. rewrite H0 in Hs.
  destruct (reqClosed s) eqn:Hq; [|discriminate].
  destruct (inv_req _ _ _ H2 Hq). now repeat split.
Qed.

(** X27. A close of the session while a [Write] is at its channel send on a
    stream that was not closed ends in a deadlock: from the moment
    [listen] offers its "Channel closed" reply, in every continuation
    [listen] stays at that send, the [Write] never returns, no further
    call returns, and [Session.Close] never returns either, since the
    stream never gives its slot of the worker pool back. *)
Theorem session_close_with_pending_write_deadlocks :
  forall getTable se prog s0 s s' wr msg,
    openStream se prog = Some s0 ->
    reachable getTable s0 s ->
    lis s = LisReplyClosed ->
    owner s = SendReq wr msg ->
    ~ In OpClose (map fst (returned s)) ->
    reachable getTable s s' ->
    lis s' = LisReplyClosed /\ owner s' = SendReq wr msg /\
    returned s' = returned s /\ closer s' <> CloseReturned.
Proof.
  intros getTable se prog s0 s s' wr msg Ho Hr Hl Hw Hnc Hr'.
  destruct (openStream_Inv2 prog se s0 Ho) as (HI & HI2).
  destruct (reachable_Inv2 getTable prog _ s0 s HI HI2 Hr) as (H1 & _).
  destruct (offer_is_never_taken getTable s s' H1 Hl Hr') as (Hl' & Hkeep).
  destruct (Hkeep wr msg Hw) as (Hw' & Hret).
  split; [exact Hl'|]. split; [exact Hw'|]. split; [exact Hret|].
  intros Hc.
  pose proof (reachable_trans getTable s0 s s' Hr Hr') as Hr0.
  destruct (reachable_Inv2 getTable prog _ s0 s' HI HI2 Hr0) as (_ & H2).
  pose proof (inv_closer _ _ _ H2 Hc) as H0.
  pose proof (inv_slot _ _ _ H2) as Hs. rewrite H0 in Hs.
  destruct (reqClosed s') eqn:Hq; [|discriminate].
  destruct (inv_req _ _ _ H2 Hq) as (_ & Hin).
  apply Hnc. now rewrite <- Hret.
Qed.

(** X28. A stream of the postgres dialect that is used as intended (the
    writes, then [Flush], then [Close]) has a run in which every call
    returns, [Flush] and [Close] return nil, the forwarder and [listen]
    have finished, the transaction is committed, every buffer is empty
    and the stream's slot of the worker pool is free again.  This holds
    whether or not the schema manager finds a table for each request. *)
Theorem clean_use_commits :
  forall getTable se wrs s0,
    dbo se = newPostgressDbOper ->
    openStream se (cleanUse wrs) = Some s0 ->
    exists s,
      reachable getTable s0 s /\
      crashed s = None /\ owner s = Ready /\ todo s = [] /\
      lis s = LisExit /\ fwd s = FwdExit /\
      map fst (returned s) = cleanUse wrs /\
      In (OpFlush, None) (returned s) /\ In (OpClose, None) (returned s) /\
      txStateOf (ex (stream s)) = Some TxCommitted /\
      (forall k b, buffers (stream s) !! k = Some b -> rows b = []) /\
      outstanding (wp (sess s)) = outstanding (wp se).
Proof.
  intros getTable se wrs s0 Hd Hopen.
  assert (Hs0 : Idle s0 /\ todo s0 = cleanUse wrs /\ returned s0 = [] /\
                txShape (ex (stream s0)) = (true, Some TxOpen) /\
                outstanding (wp (sess s0)) = S (outstanding (wp se))).
  { revert Hopen. unfold openStream, GetNewExecutor, DB_BeginTx, wpAdd.
    destruct (wpClosed (wp se)); [discriminate|].
    destruct (_ <? _)%nat; [|discriminate].
    destruct (dbOpen (Session.db se)); [|discriminate].
    intros [= <-]. repeat split; auto. }
  destruct Hs0 as (Hi & Ht & Hret & Hsh & Hout).
  destruct (writes_return getTable wrs s0 [OpFlush; OpClose] Hi Ht)
    as (s1 & Hr1 & Hi1 & Ht1 & Hret1 & Hsh1 & Hse1).
  rewrite Hsh in Hsh1.
  destruct (flush_close_return getTable s1 Hi1 Ht1 Hsh1)
    as (s2 & Hr2 & Hc2 & Ho2 & Ht2 & Hl2 & Hf2 & Hret2 & Hcm & Hrows & Hw).
  exists s2. split; [now apply (reachable_trans getTable s0 s1)|].
  repeat (split; [assumption|]).
  rewrite Hret2.
  split; [|split; [|split; [|split; [|split]]]].
  - rewrite map_app, Hret1, Hret. reflexivity.
  - apply in_or_app. right. now left.
  - apply in_or_app. right. right. now left.
  - exact Hcm.
  - exact Hrows.
  - rewrite Hw, Hse1, Hout. reflexivity.
Qed.

Lemma ownerClosed_reachable :
  reachable table0 (started [OpWrite request0; OpClose]) ownerClosed.
Proof.
  apply follow_reachable with [0; 0; 0; 0; 0; 0; 0; 0; 0].
  vm_compute. reflexivity.
Qed.

Lemma reused_reachable :
  reachable table0 (started [OpClose; OpWrite request0]) reused.
Proof. apply follow_reachable with [0; 1]. vm_compute. reflexivity. Qed.

Lemma abruptClosed_reachable :
  reachable table0 (started [OpWrite request0]) abruptClosed.
Proof.
  apply follow_reachable with [0; 1; 0; 0]. vm_compute. reflexivity.
Qed.


Lemma listen_returns_only_after_Close_witness :
  (closed (stream ownerClosed) = true <->
   lis ownerClosed = LisReplyClosed \/ lis ownerClosed = LisExit) /\
  (lis ownerClosed = LisExit ->
   childClosed ownerClosed = true /\ respClosed ownerClosed = true) /\
  (reqClosed ownerClosed = true <->
   In OpClose (map fst (returned ownerClosed))).
Proof.
  apply (listen_returns_only_after_Close table0 session0
           [OpWrite request0; OpClose] (started [OpWrite request0; OpClose])
           ownerClosed eq_refl ownerClosed_reachable).
Defined.

Lemma use_after_Close_panics_witness :
  exists s1,
    ownerSteps table0 reused = [s1] /\
    ownerSteps table0 s1 = [crash s1 "send on closed channel"] /\
    forall s',
      reachable table0 s1 s' ->
      owner s' = SendReq request0 message0 /\ returned s' = returned reused.
Proof.
  destruct (use_after_Close_panics table0 session0
              [OpClose; OpWrite request0]
              (started [OpClose; OpWrite request0]) reused []
              eq_refl reused_reachable eq_refl (or_introl eq_refl))
    as (_ & Hw).
  exact (Hw request0 message0 eq_refl eq_refl).
Defined.

Lemma Session_Close_waits_for_stream_Close_witness :
  In OpClose (map fst (returned ownerClosed)) /\
  childClosed ownerClosed = true /\ outstanding (wp session0) = 0.
Proof.
  apply (Session_Close_waits_for_stream_Close table0 session0
           [OpWrite request0; OpClose] (started [OpWrite request0; OpClose])
           ownerClosed eq_refl ownerClosed_reachable).
  vm_compute. reflexivity.
Defined.

Lemma session_close_with_pending_write_deadlocks_witness :
  lis abruptClosed = LisReplyClosed /\
  owner abruptClosed = SendReq request0 message0 /\
  returned abruptClosed = returned abruptClosed /\
  closer abruptClosed <> CloseReturned.
Proof.
  apply (session_close_with_pending_write_deadlocks table0 session0
           [OpWrite request0] (started [OpWrite request0]) abruptClosed
           abruptClosed request0 message0 eq_refl abruptClosed_reachable).
  - vm_compute. reflexivity.
  - vm_compute. reflexivity.
  - vm_compute. tauto.
  - apply rtc_refl.
Defined.

Lemma clean_use_commits_witness :
  exists s,
    reachable table0 (started (cleanUse [request0; request1])) s /\
    crashed s = None /\ owner s = Ready /\ todo s = [] /\
    lis s = LisExit /\ fwd s = FwdExit /\
    map fst (returned s) = cleanUse [request0; request1] /\
    In (OpFlush, None) (returned s) /\ In (OpClose, None) (returned s) /\
    txStateOf (ex (stream s)) = Some TxCommitted /\
    (forall k b, buffers (stream s) !! k = Some b -> rows b = []) /\
    outstanding (wp (sess s)) = outstanding (wp session0).
Proof.
  apply (clean_use_commits table0 session0 [request0; request1]
           (started (cleanUse [request0; request1]))); reflexivity.
Defined.

End RuntimeMoreFacts.
